(** * boltdb: the mmap growth-sizing policy and the page pool

    A shallow embedding of [AlignTo], [MmapSizer::ComputeMmapSize] and
    [PagePool<N>] (with its [ThreadLocalCache] and the victim list), and the
    properties the specification states about them.

    [size_t] and [uint64_t] values are integers in [0, 2^64) with the
    wrap-around of unsigned arithmetic written out; pointers are 64-bit
    addresses, [nullptr] is [0]. *)

From Stdlib Require Import ZArith Lia List Bool.
From stdpp Require Import base gmap list.
From stdpp Require Import strings.

Local Open Scope Z_scope.

(** ** Unsigned 64-bit arithmetic *)

Module SizeT.

Definition bits : Z := 64.
Definition modulus : Z := 2 ^ bits.
Definition SIZE_MAX : Z := modulus - 1.

(** Reduction of a mathematical integer to its [size_t] value. *)
Definition wrap (x : Z) : Z := x mod modulus.

Definition add (x y : Z) : Z := wrap (x + y).
Definition sub (x y : Z) : Z := wrap (x - y).

(** [~x] on a [size_t]. *)
Definition not (x : Z) : Z := wrap (Z.lnot x).

(** [x & y]. *)
Definition and (x y : Z) : Z := Z.land x y.

End SizeT.

(** ** align.hh *)

(** [return (size + alignment - 1) & ~(alignment - 1);] *)
Definition AlignTo (size alignment : Z) : Z :=
  SizeT.and (SizeT.sub (SizeT.add size alignment) 1)
            (SizeT.not (SizeT.sub alignment 1)).

(** ** status.hh and <system_error> *)

Inductive DBErrorCode := kOk | kMmapTooLarge.

(** The enumerators' values: [kOk = 0], [kMmapTooLarge] follows it. *)
Definition DBErrorCode_value (c : DBErrorCode) : Z :=
  match c with kOk => 0 | kMmapTooLarge => 1 end.

Inductive error_category := generic_category | boltdb_category.

Record error_code := mk_error_code { ec_value : Z; ec_category : error_category }.

(** [std::make_error_code(std::errc)] builds a code of the generic category
    holding the enumerator's value. *)
Definition make_error_code (errc : Z) : error_code :=
  mk_error_code errc generic_category.

(** [MakeErrorCode]: the code in the library's own category. *)
Definition MakeErrorCode (e : DBErrorCode) : error_code :=
  mk_error_code (DBErrorCode_value e) boltdb_category.

(** ** expected.hh: a value or an error, told apart by [has_value_] *)

Inductive Expected (T E : Type) :=
  | Value (val_ : T)
  | UnExpected (unex_ : E).
Arguments Value {T E} _.
Arguments UnExpected {T E} _.

Definition has_value {T E} (x : Expected T E) : bool :=
  match x with Value _ => true | UnExpected _ => false end.

(** ** <algorithm>: [std::lower_bound] on an array, by index

    The loop of the standard algorithm: [count] elements remain from [first];
    probe the middle one and keep the half that can hold the answer. *)

Fixpoint lower_bound_loop (fuel : nat) (a : list Z) (first count : nat)
    (value : Z) : nat :=
  match fuel with
  | O => first
  | S fuel' =>
      if (0 <? count)%nat then
        let step := (count / 2)%nat in
        let it := (first + step)%nat in
        if nth it a 0 <? value
        then lower_bound_loop fuel' a (S it) (count - (step + 1))%nat value
        else lower_bound_loop fuel' a first step value
      else first
  end.

(** [std::lower_bound(a.begin(), a.end(), value) - a.begin()]; the result
    [length a] stands for [a.end()]. *)
Definition lower_bound (a : list Z) (value : Z) : nat :=
  lower_bound_loop (length a) a 0 (length a) value.

(** ** db.hh: MmapSizer *)

Record MmapSizer := mkMmapSizer {
  max_mmap_size_ : Z;
  max_mmap_step_ : Z;
  page_size_ : Z
}.

Definition kDefaultMaxMmapSize : Z := 0xFFFFFFFFFFFF.
Definition kDefaultMaxMmapStep : Z := Z.shiftl 1 30.

(** The constructor, and the constructor with its default arguments. *)
Definition MmapSizer_new (page_size max_mmap_size max_mmap_step : Z) : MmapSizer :=
  mkMmapSizer max_mmap_size max_mmap_step page_size.

Definition MmapSizer_default (page_size : Z) : MmapSizer :=
  MmapSizer_new page_size kDefaultMaxMmapSize kDefaultMaxMmapStep.

Definition kMmapSizeLevels : list Z :=
  [ Z.shiftl 1 15; Z.shiftl 1 16; Z.shiftl 1 17; Z.shiftl 1 18;
    Z.shiftl 1 19; Z.shiftl 1 20; Z.shiftl 1 21; Z.shiftl 1 22;
    Z.shiftl 1 23; Z.shiftl 1 24; Z.shiftl 1 25; Z.shiftl 1 26;
    Z.shiftl 1 27; Z.shiftl 1 28; Z.shiftl 1 29; Z.shiftl 1 30 ].

(** The error built on rejection:
    [std::make_error_code(static_cast<std::errc>(DBErrorCode::kMmapTooLarge))]. *)
Definition too_large_error : error_code :=
  make_error_code (DBErrorCode_value kMmapTooLarge).

Definition ComputeMmapSize (s : MmapSizer) (requested_size : Z)
    : Expected Z error_code :=
  if max_mmap_size_ s <? requested_size then UnExpected too_large_error
  else
    let it := lower_bound kMmapSizeLevels requested_size in
    if negb (it =? length kMmapSizeLevels)%nat
    then Value (nth it kMmapSizeLevels 0)
    else
      let new_size := AlignTo requested_size (max_mmap_step_ s) in
      let new_size := AlignTo new_size (page_size_ s) in
      Value (Z.min new_size (max_mmap_size_ s)).

(** ** The sizing policy in the specification's words

    The first table entry at or above the request; above the table, the
    request rounded up to a multiple of the step, then of the page size,
    then clamped. *)

Definition round_up (x m : Z) : Z := ((x + m - 1) / m) * m.

Definition spec_ComputeMmapSize (s : MmapSizer) (requested_size : Z)
    : Expected Z error_code :=
  if max_mmap_size_ s <? requested_size then UnExpected too_large_error
  else
    match find (fun e => requested_size <=? e) kMmapSizeLevels with
    | Some e => Value e
    | None =>
        Value (Z.min (round_up (round_up requested_size (max_mmap_step_ s))
                               (page_size_ s))
                     (max_mmap_size_ s))
    end.

(** ** config.hh *)

Definition kPageSize : Z := 4096.

(** ** page_pool.hh

    A [PageData] is [kPageSize] bytes; the union overlays the pointer [next]
    on the first [sizeof(PageData* )] of them. A page is modelled by its
    bytes, each in [0, 256), and a pointer's object representation by its
    eight bytes, least significant first. *)

Definition nullptr : Z := 0.

Definition sizeof_ptr : nat := 8.

Fixpoint ptr_to_bytes (n : nat) (v : Z) : list Z :=
  match n with
  | O => []
  | S n' => (v mod 256) :: ptr_to_bytes n' (v / 256)
  end.

Fixpoint bytes_to_ptr (bs : list Z) : Z :=
  match bs with
  | [] => 0
  | b :: bs' => b + 256 * bytes_to_ptr bs'
  end.

(** [std::memcpy(p->data, &head, sizeof(PageData* ))] on the bytes of [*p]. *)
Definition store_link (head : Z) (page : list Z) : list Z :=
  ptr_to_bytes sizeof_ptr head ++ drop sizeof_ptr page.

(** [std::memcpy(&next, head->data, sizeof(PageData* ))] from the bytes of
    [*head]. *)
Definition load_link (page : list Z) : Z :=
  bytes_to_ptr (take sizeof_ptr page).

(** [compare_exchange_weak(expected, desired)] on an atomic holding [atom]:
    success, the atomic's new value, and [expected] as the call leaves it.
    The weak form may fail although the values agree ([spurious]); a failed
    call loads the atomic's value into [expected]. *)
Definition compare_exchange_weak (spurious : bool) (atom expected desired : Z)
    : bool * Z * Z :=
  if negb spurious && (atom =? expected)
  then (true, desired, expected)
  else (false, atom, atom).

Record ThreadLocalCache := mkCache {
  stack : list Z;
  top : nat
}.

(** Calls that leave the pool: the reset callback and the heap. *)
Inductive call :=
  | CallReset (p : Z)
  | CallNew (p : Z)
  | CallDelete (p : Z).

(** The pool's members ([victim_head_], [reset_fn_], and [local_cache_], one
    per thread id), together with the heap of live [PageData] objects and the
    log of outside calls in the order they happen. *)
Record PagePool := mkPool {
  victim_head_ : Z;
  reset_fn_ : list Z -> list Z;
  local_cache_ : gmap nat ThreadLocalCache;
  heap : gmap Z (list Z);
  calls : list call
}.

(** What a call does: return, leave by [std::bad_alloc], or exhaust the
    model's loop budget. *)
Inductive outcome (A : Type) :=
  | Done (a : A)
  | Threw_bad_alloc
  | Out_of_fuel.
Arguments Done {A} _.
Arguments Threw_bad_alloc {A}.
Arguments Out_of_fuel {A}.

Definition set_victim_head (v : Z) (st : PagePool) : PagePool :=
  mkPool v (reset_fn_ st) (local_cache_ st) (heap st) (calls st).

Definition set_heap (h : gmap Z (list Z)) (st : PagePool) : PagePool :=
  mkPool (victim_head_ st) (reset_fn_ st) (local_cache_ st) h (calls st).

Definition set_cache (t : nat) (c : ThreadLocalCache) (st : PagePool) : PagePool :=
  mkPool (victim_head_ st) (reset_fn_ st) (<[t := c]> (local_cache_ st))
         (heap st) (calls st).

Definition log_call (c : call) (st : PagePool) : PagePool :=
  mkPool (victim_head_ st) (reset_fn_ st) (local_cache_ st) (heap st)
         (calls st ++ [c]).

(** The bytes of the page at [p]; nothing is known of a dead page. *)
Definition page_bytes (st : PagePool) (p : Z) : list Z :=
  default [] (heap st !! p).

Section PagePool.

(** The template parameter. *)
Variable N : nat.

(** [new PageData]: for the heap as it is, the address of the new object and
    the bytes found there (it is not initialised), or [None] when the
    allocation throws. *)
Variable operator_new : gmap Z (list Z) -> option (Z * list Z).

(** A thread's cache before its first use: thread-local storage is zeroed,
    then [top = 0]. *)
Definition ThreadLocalCache_init : ThreadLocalCache :=
  mkCache (replicate N nullptr) 0.

Definition cache_of (st : PagePool) (t : nat) : ThreadLocalCache :=
  default ThreadLocalCache_init (local_cache_ st !! t).

Definition IsEmpty (c : ThreadLocalCache) : bool := (top c =? 0)%nat.
Definition IsFull (c : ThreadLocalCache) : bool := (N <=? top c)%nat.

(** [return stack[--top];] *)
Definition TryPop (c : ThreadLocalCache) : Z * ThreadLocalCache :=
  if IsEmpty c then (nullptr, c)
  else (nth (top c - 1) (stack c) nullptr, mkCache (stack c) (top c - 1)).

(** [stack[top] = p; top++;] The array has [N] slots and the guard keeps
    [top] below [N], so the store is in range. *)
Definition TryPush (c : ThreadLocalCache) (p : Z) : bool * ThreadLocalCache :=
  if IsFull c then (false, c)
  else (true, mkCache (<[top c := p]> (stack c)) (S (top c))).

(** [delete p]; deleting [nullptr] does nothing. *)
Definition delete_PageData (st : PagePool) (p : Z) : PagePool :=
  if p =? nullptr then st
  else log_call (CallDelete p) (set_heap (delete p (heap st)) st).

(** [for (size_t i = 0; i < top; ++i) delete stack[i]; top = 0;] *)
Definition Drain (t : nat) (st : PagePool) : PagePool :=
  let c := cache_of st t in
  let st' := foldl (fun s i => delete_PageData s (nth i (stack c) nullptr))
                   st (seq 0 (top c)) in
  set_cache t (mkCache (stack c) 0) st'.

(** [~ThreadLocalCache() noexcept { Drain(); }] *)
Definition ThreadLocalCache_destroy (t : nat) (st : PagePool) : PagePool :=
  Drain t st.

Definition TryAcquireFromLocalCache (t : nat) (st : PagePool) : Z * PagePool :=
  let '(page, c) := TryPop (cache_of st t) in
  (page, set_cache t c st).

Definition ReturnToLocalCache (t : nat) (p : Z) (st : PagePool) : bool * PagePool :=
  let '(ok, c) := TryPush (cache_of st t) p in
  (ok, set_cache t c st).

(** The loop of [StealFromVictimList], entered with the local [head]; [sp]
    tells which of the coming weak exchanges fail spuriously. *)
Fixpoint steal_loop (fuel : nat) (sp : list bool) (head : Z) (st : PagePool)
    : outcome (Z * PagePool) :=
  match fuel with
  | O => Out_of_fuel
  | S fuel' =>
      if head =? nullptr then Done (nullptr, st)
      else
        let next := load_link (page_bytes st head) in
        let '(ok, atom, head') :=
          compare_exchange_weak (hd false sp) (victim_head_ st) head next in
        if ok then Done (head, set_victim_head atom st)
        else steal_loop fuel' (tl sp) head' st
  end.

Definition StealFromVictimList (sp : list bool) (st : PagePool)
    : outcome (Z * PagePool) :=
  steal_loop (S (length sp)) sp (victim_head_ st) st.

(** The do-while of [AddToVictimList]. *)
Fixpoint add_loop (fuel : nat) (sp : list bool) (p head : Z) (st : PagePool)
    : outcome PagePool :=
  match fuel with
  | O => Out_of_fuel
  | S fuel' =>
      let st1 := set_heap (alter (store_link head) p (heap st)) st in
      let '(ok, atom, head') :=
        compare_exchange_weak (hd false sp) (victim_head_ st1) head p in
      if ok then Done (set_victim_head atom st1)
      else add_loop fuel' (tl sp) p head' st1
  end.

Definition AddToVictimList (sp : list bool) (p : Z) (st : PagePool)
    : outcome PagePool :=
  add_loop (S (length sp)) sp p (victim_head_ st) st.

(** [reset_fn_(page);] *)
Definition invoke_reset (p : Z) (st : PagePool) : PagePool :=
  log_call (CallReset p) (set_heap (alter (reset_fn_ st) p (heap st)) st).

(** [return new PageData;] *)
Definition new_PageData (st : PagePool) : outcome (Z * PagePool) :=
  match operator_new (heap st) with
  | None => Threw_bad_alloc
  | Some (p, bytes) =>
      Done (p, log_call (CallNew p) (set_heap (<[p := bytes]> (heap st)) st))
  end.

(** [PagePool::Get], called by thread [t]. *)
Definition Get (t : nat) (sp : list bool) (st : PagePool)
    : outcome (Z * PagePool) :=
  let '(page, st1) := TryAcquireFromLocalCache t st in
  if negb (page =? nullptr) then Done (page, st1)
  else
    match StealFromVictimList sp st1 with
    | Done (stolen, st2) =>
        if negb (stolen =? nullptr) then Done (stolen, st2)
        else new_PageData st2
    | Threw_bad_alloc => Threw_bad_alloc
    | Out_of_fuel => Out_of_fuel
    end.

(** [PagePool::Put], called by thread [t]. *)
Definition Put (t : nat) (sp : list bool) (page : Z) (st : PagePool)
    : outcome PagePool :=
  if page =? nullptr then Done st
  else
    let st1 := invoke_reset page st in
    let '(ok, st2) := ReturnToLocalCache t page st1 in
    if ok then Done st2
    else AddToVictimList sp page st2.

(** *** Where a page is *)

(** [p] is one of the entries of thread [t]'s cache. *)
Definition in_local_cache (st : PagePool) (t : nat) (p : Z) : Prop :=
  exists i, (i < top (cache_of st t))%nat /\ stack (cache_of st t) !! i = Some p.

(** The cache is a stack of [N] slots with [top] of them in use, none of
    them holding [nullptr]. *)
Definition cache_ok (c : ThreadLocalCache) : Prop :=
  length (stack c) = N /\ (top c <= N)%nat /\
  forall i p, (i < top c)%nat -> stack c !! i = Some p -> p <> nullptr.

(** What [operator new] promises: an address that is not null, fits a
    pointer, and is not that of a live object. *)
Definition allocator_ok : Prop :=
  forall h p bytes, operator_new h = Some (p, bytes) ->
    0 < p < SizeT.modulus /\ h !! p = None.

End PagePool.

(** [q] is linked into the victim list that starts at [head]. *)
Inductive on_victim_list (h : gmap Z (list Z)) : Z -> Z -> Prop :=
  | ovl_head head :
      head <> nullptr -> on_victim_list h head head
  | ovl_next head bytes q :
      head <> nullptr -> h !! head = Some bytes ->
      on_victim_list h (load_link bytes) q ->
      on_victim_list h head q.

Definition in_victim_list (st : PagePool) (p : Z) : Prop :=
  on_victim_list (heap st) (victim_head_ st) p.

(** [static void Reset(PageData* ) noexcept {}], the default [reset_fn_]. *)
Definition Reset (bytes : list Z) : list Z := bytes.

(** The pool as its constructor leaves it, in a process that holds no page. *)
Definition PagePool_new (reset : list Z -> list Z) : PagePool :=
  mkPool nullptr reset ∅ ∅ [].

(** An allocator to run the pool with: an arena of [slots] blocks of
    [sizeof(PageData)] bytes, handing out the lowest block that is not live,
    with whatever [garbage] its bytes hold. *)
Definition sizeof_PageData : Z := AlignTo kPageSize 64.

Definition arena (slots : nat) : list Z :=
  map (fun i => sizeof_PageData * Z.of_nat i) (seq 1 slots).

Definition arena_new (slots : nat) (garbage : list Z) (h : gmap Z (list Z))
    : option (Z * list Z) :=
  match find (fun a => bool_decide (h !! a = None)) (arena slots) with
  | Some a => Some (a, garbage)
  | None => None
  end.

(** The bytes [new] finds in a block: whatever was there. *)
Definition uninitialised : list Z := replicate (Z.to_nat kPageSize) 0xCD.

(** ** Threads taking turns

    Each thread is either between calls or inside the victim-list loop of a
    [Get] or a [Put]; a turn performs the thread's work up to and including
    its next access to [victim_head_] or the heap. *)

Module Interleaving.

Inductive pc :=
  | Idle
  | StealLoaded (head : Z)
  | StealRead (head next : Z)
  | AddLoaded (p head : Z)
  | AddWritten (p head : Z).

(** The pool, where each thread stands, and the pages each thread has got
    from [Get] and not yet given to [Put]. *)
Record Machine := mkMachine {
  pool : PagePool;
  pcs : gmap nat pc;
  checked_out : gmap nat (list Z)
}.

Inductive action :=
  | CallGet (t : nat)
  | CallPut (t : nat) (p : Z)
  | Step (t : nat) (spurious : bool).

Definition pc_of (m : Machine) (t : nat) : pc := default Idle (pcs m !! t).

Definition held (m : Machine) (t : nat) : list Z :=
  default [] (checked_out m !! t).

Definition at_pc (t : nat) (c : pc) (st : PagePool) (m : Machine) : Machine :=
  mkMachine st (<[t := c]> (pcs m)) (checked_out m).

(** [Get] returns [p] to thread [t]. *)
Definition returns (t : nat) (p : Z) (st : PagePool) (m : Machine) : Machine :=
  mkMachine st (<[t := Idle]> (pcs m)) (<[t := p :: held m t]> (checked_out m)).

Fixpoint remove_one (p : Z) (l : list Z) : list Z :=
  match l with
  | [] => []
  | q :: l' => if q =? p then l' else q :: remove_one p l'
  end.

Section Machine.

Variable N : nat.
Variable operator_new : gmap Z (list Z) -> option (Z * list Z).

Definition step (a : action) (m : Machine) : option Machine :=
  match a with
  | CallGet t =>
      match pc_of m t with
      | Idle =>
          let '(page, st1) := TryAcquireFromLocalCache N t (pool m) in
          if negb (page =? nullptr) then Some (returns t page st1 m)
          else Some (at_pc t (StealLoaded (victim_head_ st1)) st1 m)
      | _ => None
      end
  | CallPut t p =>
      match pc_of m t with
      | Idle =>
          if p =? nullptr then Some m
          else if bool_decide (p ∈ held m t) then
            let st1 := invoke_reset p (pool m) in
            let '(ok, st2) := ReturnToLocalCache N t p st1 in
            let m' := mkMachine st2 (pcs m)
                        (<[t := remove_one p (held m t)]> (checked_out m)) in
            if ok then Some m'
            else Some (at_pc t (AddLoaded p (victim_head_ st2)) st2 m')
          else None
      | _ => None
      end
  | Step t spurious =>
      match pc_of m t with
      | Idle => None
      | StealLoaded head =>
          if head =? nullptr then
            match new_PageData operator_new (pool m) with
            | Done (p, st) => Some (returns t p st m)
            | _ => None
            end
          else
            Some (at_pc t (StealRead head (load_link (page_bytes (pool m) head)))
                        (pool m) m)
      | StealRead head next =>
          let '(ok, atom, head') :=
            compare_exchange_weak spurious (victim_head_ (pool m)) head next in
          if ok then Some (returns t head (set_victim_head atom (pool m)) m)
          else Some (at_pc t (StealLoaded head') (pool m) m)
      | AddLoaded p head =>
          Some (at_pc t (AddWritten p head)
                  (set_heap (alter (store_link head) p (heap (pool m))) (pool m)) m)
      | AddWritten p head =>
          let '(ok, atom, head') :=
            compare_exchange_weak spurious (victim_head_ (pool m)) head p in
          if ok then Some (at_pc t Idle (set_victim_head atom (pool m)) m)
          else Some (at_pc t (AddLoaded p head') (pool m) m)
      end
  end.

Fixpoint run (sched : list action) (m : Machine) : option Machine :=
  match sched with
  | [] => Some m
  | a :: sched' =>
      match step a m with
      | Some m' => run sched' m'
      | None => None
      end
  end.

End Machine.

Definition Machine_new (reset : list Z -> list Z) : Machine :=
  mkMachine (PagePool_new reset) ∅ ∅.

(** One thread running alone: after its call, the turns that finish it. *)
Fixpoint finish (N : nat) (operator_new : gmap Z (list Z) -> option (Z * list Z))
    (fuel : nat) (t : nat) (m : Machine) : option Machine :=
  match pc_of m t with
  | Idle => Some m
  | _ =>
      match fuel with
      | O => None
      | S fuel' =>
          match step N operator_new (Step t false) m with
          | Some m' => finish N operator_new fuel' t m'
          | None => None
          end
      end
  end.

Definition solo (N : nat) (operator_new : gmap Z (list Z) -> option (Z * list Z))
    (a : action) (t : nat) (m : Machine) : option Machine :=
  match step N operator_new a m with
  | Some m' => finish N operator_new 2 t m'
  | None => None
  end.

(** The turns of whole calls that meet no other thread. *)
Definition page (i : nat) : Z := sizeof_PageData * Z.of_nat i.
Definition get_fresh (t : nat) : list action := [CallGet t; Step t false].
Definition get_local (t : nat) : list action := [CallGet t].
Definition get_victim (t : nat) : list action :=
  [CallGet t; Step t false; Step t false].
Definition put_local (t : nat) (p : Z) : list action := [CallPut t p].
Definition put_victim (t : nat) (p : Z) : list action :=
  [CallPut t p; Step t false; Step t false].

(** Two threads, caches of [n] slots. Thread 1 takes [n + 2] fresh pages and
    returns them: [n] fill its cache, the last two go on the victim list.
    Thread 0 starts a [Get]: it loads the head, reads the head's link, and
    stops before its exchange. Thread 1 takes all [n + 2] pages again,
    returns [n] of them to its cache and the former head to the victim list,
    and keeps page [n + 1]. Thread 0 finishes its [Get], then calls [Get]
    once more. *)
Definition aba_schedule (n : nat) : list action :=
  concat (replicate (n + 2) (get_fresh 1)) ++
  concat (map (fun i => put_local 1 (page i)) (seq 1 n)) ++
  put_victim 1 (page (n + 1)) ++ put_victim 1 (page (n + 2)) ++
  [CallGet 0; Step 0 false] ++
  concat (replicate n (get_local 1)) ++
  get_victim 1 ++ get_victim 1 ++
  concat (map (fun i => put_local 1 (page i)) (seq 1 n)) ++
  put_victim 1 (page (n + 2)) ++
  [Step 0 false] ++
  get_victim 0.

(** Three threads, caches of no slot, every thread strictly alternating
    [Get] and [Put] and so holding one page at most. Threads 1 and 2 each
    take a fresh page and return it. Thread 0 starts a [Get] and stops
    before its exchange. Threads 1 and 2 each take a page; thread 1 returns
    its page. Thread 0 finishes its [Get]; thread 1 calls [Get]. *)
Definition aba_schedule_cycles : list action :=
  get_fresh 1 ++ get_fresh 2 ++
  put_victim 1 (page 1) ++ put_victim 2 (page 2) ++
  [CallGet 0; Step 0 false] ++
  get_victim 1 ++ get_victim 2 ++
  put_victim 1 (page 2) ++
  [Step 0 false] ++
  get_victim 1.

End Interleaving.

(** ** Predicates used by the statements *)

(** A power of two that a [size_t] can hold. *)
Definition power_of_two (a : Z) : Prop := exists k, 0 <= k < SizeT.bits /\ a = 2 ^ k.

(** Ascending order, by index. *)
Definition ascending (a : list Z) : Prop :=
  forall i j, (i <= j < length a)%nat -> nth i a 0 <= nth j a 0.

(** [r] splits [a] into the entries below [value] and the others. *)
Definition partition_point (a : list Z) (value : Z) (r : nat) : Prop :=
  (r <= length a)%nat /\
  (forall i, (i < r)%nat -> nth i a 0 < value) /\
  (forall i, (r <= i < length a)%nat -> value <= nth i a 0).

(** ** expected.hh: observers and monadic operations

    Each member has one overload per value category of [*this]; they differ
    in copying or moving the stored object, which a value does not show. *)

(** [if (has_value_) return val_; return static_cast<T>(std::forward<U>(v));] *)
Definition ValueOr {T E} (x : Expected T E) (v : T) : T :=
  match x with Value t => t | UnExpected _ => v end.

(** [if (has_value_) return std::forward<Gr>(e); return unex_;] *)
Definition ErrorOr {T E} (x : Expected T E) (e : E) : E :=
  match x with Value _ => e | UnExpected u => u end.

(** [if (HasValue()) return std::invoke(f, val_); else return U(unexpect, unex_);] *)
Definition AndThen {T U E} (x : Expected T E) (f : T -> Expected U E)
    : Expected U E :=
  match x with Value t => f t | UnExpected u => UnExpected u end.

(** [if (HasValue()) return Gr(std::in_place, val_); else return std::invoke(f, unex_);] *)
Definition OrElse {T E G} (x : Expected T E) (f : E -> Expected T G)
    : Expected T G :=
  match x with Value t => Value t | UnExpected u => f u end.

(** [if (HasValue()) return Res(in_place_inv{}, [&]() { return std::invoke(f, val_); });
    else return Res(unexpect, unex_);] *)
Definition Transform {T U E} (x : Expected T E) (f : T -> U) : Expected U E :=
  match x with Value t => Value (f t) | UnExpected u => UnExpected u end.

(** [if (HasValue()) return Res(std::in_place, val_);
    else return Res(unexpect_inv{}, [&]() { return std::invoke(f, unex_); });] *)
Definition TransformError {T E G} (x : Expected T E) (f : E -> G)
    : Expected T G :=
  match x with Value t => Value t | UnExpected u => UnExpected (f u) end.

(** [operator==] on two expected objects, with the comparisons of the stored
    types: [if (x.HasValue()) return y.HasValue() && bool( *x == *y);
    else return !y.HasValue() && bool(x.Error() == y.Error());] *)
Definition Expected_eq {T U E E2} (eq_val : T -> U -> bool) (eq_err : E -> E2 -> bool)
    (x : Expected T E) (y : Expected U E2) : bool :=
  match x with
  | Value a => match y with Value b => eq_val a b | UnExpected _ => false end
  | UnExpected e => match y with Value _ => false | UnExpected e2 => eq_err e e2 end
  end.

(** [return x.HasValue() && bool( *x == v);] *)
Definition Expected_eq_value {T U E} (eq_val : T -> U -> bool)
    (x : Expected T E) (v : U) : bool :=
  match x with Value a => eq_val a v | UnExpected _ => false end.

(** [return !x.HasValue() && bool(x.Error() == e.Error());] *)
Definition Expected_eq_unexpected {T E E2} (eq_err : E -> E2 -> bool)
    (x : Expected T E) (e : E2) : bool :=
  match x with Value _ => false | UnExpected u => eq_err u e end.

(** [SwapValueAndUnExpext], called on an object with a value and given one
    without: the value moves to [rhs], the error to [*this]. The pair is
    [*this] and [rhs] as the call leaves them; outside its precondition the
    call is not defined, and the objects are returned as they are. *)
Definition SwapValueAndUnExpext {T E} (this rhs : Expected T E)
    : Expected T E * Expected T E :=
  match this, rhs with
  | Value a, UnExpected e => (UnExpected e, Value a)
  | _, _ => (this, rhs)
  end.

(** [swap(Expected& x)]: [*this] and [x] as the call leaves them. *)
Definition Expected_swap {T E} (this x : Expected T E)
    : Expected T E * Expected T E :=
  match this with
  | Value a =>
      match x with
      | Value b => (Value b, Value a)
      | UnExpected _ => SwapValueAndUnExpext this x
      end
  | UnExpected e =>
      match x with
      | Value _ => let '(x', this') := SwapValueAndUnExpext x this in (this', x')
      | UnExpected e2 => (UnExpected e2, UnExpected e)
      end
  end.

(** [operator==] of [std::error_code]: the same category and the same
    value. *)
Definition error_category_eqb (a b : error_category) : bool :=
  match a, b with
  | generic_category, generic_category => true
  | boltdb_category, boltdb_category => true
  | _, _ => false
  end.

Definition error_code_eqb (a b : error_code) : bool :=
  error_category_eqb (ec_category a) (ec_category b) &&
  (ec_value a =? ec_value b).

(** ** status.hh: [DBErrorCategory::message] *)

Definition DBErrorCategory_message (ev : Z) : string :=
  if ev =? DBErrorCode_value kOk then "OK"
  else if ev =? DBErrorCode_value kMmapTooLarge then "mmap too large"
  else "unknown boltdb error".

(** ** mylib.cc *)

(** [return "Hello, " + name + "!";] *)
Definition greet (name : string) : string :=
  String.append (String.append "Hello, " name) "!".

(** ** page_pool.hh: tearing the pool down *)

(** The loop of [DrainVictimList]: [next = head->next; delete head;
    head = next;] The link is read through the union's [next], the same
    bytes [memcpy] reads. *)
Fixpoint drain_victim_loop (fuel : nat) (head : Z) (st : PagePool)
    : outcome PagePool :=
  match fuel with
  | O => Out_of_fuel
  | S fuel' =>
      if head =? nullptr then Done st
      else
        let next := load_link (page_bytes st head) in
        drain_victim_loop fuel' next (delete_PageData st head)
  end.

(** [head = victim_head_.exchange(nullptr)], then the loop. *)
Definition DrainVictimList (fuel : nat) (st : PagePool) : outcome PagePool :=
  drain_victim_loop fuel (victim_head_ st) (set_victim_head nullptr st).

(** [~PagePool() { DrainVictimList(); }] *)
Definition PagePool_destroy (fuel : nat) (st : PagePool) : outcome PagePool :=
  DrainVictimList fuel st.

(** The victim list as a list: from [head], the pages [ps] follow each
    other by their links, each live and at an address a pointer can hold,
    and the last one links to null. *)
Inductive victim_chain (h : gmap Z (list Z)) : Z -> list Z -> Prop :=
  | chain_end : victim_chain h nullptr []
  | chain_link p bytes ps :
      0 < p < SizeT.modulus -> h !! p = Some bytes ->
      victim_chain h (load_link bytes) ps ->
      victim_chain h p (p :: ps).

(** ** page_pool_test.cc: runs of calls on one thread *)

(** [for (auto* page : pages) pool.Put(page);] *)
Fixpoint Put_each (N : nat) (t : nat) (pages : list Z) (st : PagePool)
    : outcome PagePool :=
  match pages with
  | [] => Done st
  | page :: pages' =>
      match Put N t [] page st with
      | Done st' => Put_each N t pages' st'
      | Threw_bad_alloc => Threw_bad_alloc
      | Out_of_fuel => Out_of_fuel
      end
  end.

(** [k] calls of [Get] in a row; the pages in the order they were returned. *)
Fixpoint Get_times (N : nat) (operator_new : gmap Z (list Z) -> option (Z * list Z))
    (t : nat) (k : nat) (st : PagePool) : outcome (list Z * PagePool) :=
  match k with
  | O => Done ([], st)
  | S k' =>
      match Get N operator_new t [] st with
      | Done (page, st') =>
          match Get_times N operator_new t k' st' with
          | Done (pages, st'') => Done (page :: pages, st'')
          | Threw_bad_alloc => Threw_bad_alloc
          | Out_of_fuel => Out_of_fuel
          end
      | Threw_bad_alloc => Threw_bad_alloc
      | Out_of_fuel => Out_of_fuel
      end
  end.

(** The schedule [Interleaving.aba_schedule] up to the exchange that ends
    thread 0's first [Get], without the second [Get] of thread 0; then
    thread 1 calls [Get], which takes the top page of its cache. *)
Definition stale_head_schedule (n : nat) : list Interleaving.action :=
  take (length (Interleaving.aba_schedule n) - 3) (Interleaving.aba_schedule n) ++
  Interleaving.get_local 1.

(** * Properties *)

(** ** AlignTo *)

Lemma modulus_pos : 0 < SizeT.modulus.
Proof. reflexivity. Qed.

Lemma wrap_small x : 0 <= x < SizeT.modulus -> SizeT.wrap x = x.
Proof. intros H. unfold SizeT.wrap. now apply Z.mod_small. Qed.

Lemma pow2_bounds k : 0 <= k < SizeT.bits -> 0 < 2 ^ k < SizeT.modulus.
Proof.
  intros Hk. split.
  - apply Z.pow_pos_nonneg; lia.
  - unfold SizeT.modulus. apply Z.pow_lt_mono_r; lia.
Qed.

(** The sum [size + alignment - 1] as the unsigned arithmetic computes it,
    when it does not pass [SIZE_MAX]. *)
Lemma add_sub_1_no_wrap s a :
  0 <= s -> 0 < a -> s + a <= SizeT.modulus ->
  SizeT.sub (SizeT.add s a) 1 = s + a - 1.
Proof.
  intros Hs Ha Hsum. unfold SizeT.sub, SizeT.add.
  destruct (Z.eq_dec (s + a) SizeT.modulus) as [E | E].
  - rewrite E. unfold SizeT.wrap. rewrite Z.mod_same by (pose proof modulus_pos; lia).
    reflexivity.
  - rewrite (wrap_small (s + a)) by lia. apply wrap_small. lia.
Qed.

(** The mask [~(2^k - 1)] keeps the bits from [k] up. *)
Lemma land_not_mask x k :
  0 <= k < SizeT.bits -> 0 <= x < SizeT.modulus ->
  SizeT.and x (SizeT.not (SizeT.sub (2 ^ k) 1)) = (x / 2 ^ k) * 2 ^ k.
Proof.
  intros Hk Hx. pose proof (pow2_bounds k Hk) as Hp.
  unfold SizeT.and, SizeT.not, SizeT.sub.
  rewrite (wrap_small (2 ^ k - 1)) by lia.
  replace (2 ^ k - 1) with (Z.ones k) by (rewrite Z.ones_equiv; lia).
  unfold SizeT.wrap, SizeT.modulus.
  rewrite <- Z.land_ones by (unfold SizeT.bits; lia).
  rewrite Z.land_assoc, (Z.land_comm x), <- Z.land_assoc.
  rewrite (Z.land_ones x) by (unfold SizeT.bits; lia).
  rewrite (Z.mod_small x) by exact Hx.
  rewrite Z.land_comm, <- Z.ldiff_land, Z.ldiff_ones_r by lia.
  rewrite Z.shiftl_mul_pow2, Z.shiftr_div_pow2 by lia.
  reflexivity.
Qed.

(** For a power-of-two alignment and without wrap-around, [AlignTo] rounds up
    to the next multiple. *)
Lemma AlignTo_round_up s k :
  0 <= k < SizeT.bits -> 0 <= s -> s + 2 ^ k <= SizeT.modulus ->
  AlignTo s (2 ^ k) = round_up s (2 ^ k).
Proof.
  intros Hk Hs Hsum. pose proof (pow2_bounds k Hk) as Hp.
  unfold AlignTo. rewrite add_sub_1_no_wrap by lia.
  rewrite land_not_mask by lia. reflexivity.
Qed.

Lemma round_up_ge x m : 0 < m -> x <= round_up x m.
Proof.
  intros Hm. unfold round_up.
  pose proof (Z.div_mod (x + m - 1) m ltac:(lia)) as E.
  pose proof (Z.mod_pos_bound (x + m - 1) m Hm). nia.
Qed.

Lemma round_up_lt x m : 0 < m -> round_up x m < x + m.
Proof.
  intros Hm. unfold round_up.
  pose proof (Z.div_mod (x + m - 1) m ltac:(lia)) as E.
  pose proof (Z.mod_pos_bound (x + m - 1) m Hm). nia.
Qed.

Lemma round_up_mono x y m : 0 < m -> x <= y -> round_up x m <= round_up y m.
Proof.
  intros Hm Hxy. unfold round_up.
  apply Z.mul_le_mono_nonneg_r; [lia |].
  apply Z.div_le_mono; lia.
Qed.

(** A multiple of [2^k] below [2^64] leaves room for one more [2^k]. *)
Lemma multiple_room q k :
  0 <= k < SizeT.bits -> q * 2 ^ k < SizeT.modulus -> q * 2 ^ k + 2 ^ k <= SizeT.modulus.
Proof.
  intros Hk Hlt. pose proof (pow2_bounds k Hk) as Hp.
  assert (E : SizeT.modulus = 2 ^ (SizeT.bits - k) * 2 ^ k).
  { unfold SizeT.modulus. rewrite <- Z.pow_add_r by lia. f_equal. lia. }
  rewrite E in *.
  assert (q < 2 ^ (SizeT.bits - k)) by nia. nia.
Qed.

Lemma round_up_room x k :
  0 <= k < SizeT.bits -> 0 <= x -> round_up x (2 ^ k) < SizeT.modulus ->
  x + 2 ^ k <= SizeT.modulus.
Proof.
  intros Hk Hx Hlt. pose proof (pow2_bounds k Hk) as Hp.
  pose proof (round_up_ge x (2 ^ k) ltac:(lia)).
  unfold round_up in *.
  pose proof (multiple_room _ k Hk Hlt). lia.
Qed.

(** The two roundings of [ComputeMmapSize], when the exact result fits. *)
Lemma AlignTo_twice x j k :
  0 <= j < SizeT.bits -> 0 <= k < SizeT.bits -> 0 <= x ->
  round_up (round_up x (2 ^ j)) (2 ^ k) < SizeT.modulus ->
  AlignTo (AlignTo x (2 ^ j)) (2 ^ k) = round_up (round_up x (2 ^ j)) (2 ^ k).
Proof.
  intros Hj Hk Hx Hfit.
  pose proof (pow2_bounds j Hj) as Hpj. pose proof (pow2_bounds k Hk) as Hpk.
  pose proof (round_up_ge x (2 ^ j) ltac:(lia)) as H1.
  pose proof (round_up_ge (round_up x (2 ^ j)) (2 ^ k) ltac:(lia)) as H2.
  rewrite (AlignTo_round_up x j) by (try apply round_up_room; lia).
  apply AlignTo_round_up; [lia | lia |].
  apply round_up_room; lia.
Qed.

(** ** std::lower_bound *)

(** The loop keeps: everything before [first] is below [value], everything
    from [first + count] on is not. *)
Lemma lower_bound_loop_spec a value fuel : forall first count,
  ascending a ->
  (count <= fuel)%nat -> (first + count <= length a)%nat ->
  (forall i, (i < first)%nat -> nth i a 0 < value) ->
  (forall i, (first + count <= i < length a)%nat -> value <= nth i a 0) ->
  partition_point a value (lower_bound_loop fuel a first count value).
Proof.
  induction fuel as [| fuel IH]; intros first count Hasc Hfuel Hlen Hlo Hhi;
    cbn [lower_bound_loop].
  - replace count with 0%nat in * by lia.
    repeat split; [lia | exact Hlo | intros i Hi; apply Hhi; lia].
  - destruct (0 <? count)%nat eqn:Hc.
    + apply Nat.ltb_lt in Hc.
      assert (Hstep : (count / 2 < count)%nat) by (apply Nat.div_lt; lia).
      set (step := (count / 2)%nat) in *.
      destruct (nth (first + step) a 0 <? value) eqn:Hcmp.
      * apply Z.ltb_lt in Hcmp.
        apply IH; [exact Hasc | lia | lia | |].
        -- intros i Hi.
           assert (nth i a 0 <= nth (first + step) a 0) by (apply Hasc; lia).
           lia.
        -- intros i Hi. apply Hhi. lia.
      * apply Z.ltb_ge in Hcmp.
        apply IH; [exact Hasc | lia | lia | exact Hlo |].
        intros i Hi.
        assert (nth (first + step) a 0 <= nth i a 0) by (apply Hasc; lia).
        lia.
    + apply Nat.ltb_ge in Hc. replace count with 0%nat in * by lia.
      repeat split; [lia | exact Hlo | intros i Hi; apply Hhi; lia].
Qed.

Lemma lower_bound_spec a value :
  ascending a -> partition_point a value (lower_bound a value).
Proof.
  intros Hasc. unfold lower_bound.
  apply lower_bound_loop_spec; [exact Hasc | lia | lia | lia |].
  intros i Hi. lia.
Qed.

(** [find] returns the first entry at or above [value]: its index, and the
    entries before it. *)
Lemma find_first_ge (a : list Z) value :
  match find (fun e => value <=? e) a with
  | Some e => exists i, (i < length a)%nat /\ nth i a 0 = e /\ value <= e /\
                        forall j, (j < i)%nat -> nth j a 0 < value
  | None => forall j, (j < length a)%nat -> nth j a 0 < value
  end.
Proof.
  induction a as [| x a IH]; simpl.
  - intros j Hj. lia.
  - destruct (value <=? x) eqn:Hx.
    + apply Z.leb_le in Hx. exists 0%nat. repeat split; [lia | exact Hx |].
      intros j Hj. lia.
    + apply Z.leb_gt in Hx. destruct (find _ a) as [e |].
      * destruct IH as (i & Hi & He & Hge & Hlt).
        exists (S i). repeat split; [lia | exact He | exact Hge |].
        intros [| j] Hj; [exact Hx | apply Hlt; lia].
      * intros [| j] Hj; [exact Hx | apply IH; lia].
Qed.

(** On an ascending array the binary search and the linear search agree. *)
Lemma lower_bound_find a value :
  ascending a ->
  match find (fun e => value <=? e) a with
  | Some e => (lower_bound a value < length a)%nat /\
              nth (lower_bound a value) a 0 = e
  | None => lower_bound a value = length a
  end.
Proof.
  intros Hasc.
  destruct (lower_bound_spec a value Hasc) as (Hr & Hlo & Hhi).
  pose proof (find_first_ge a value) as Hf.
  destruct (find _ a) as [e |].
  - destruct Hf as (i & Hi & He & Hge & Hlt).
    assert (lower_bound a value = i) as ->.
    { destruct (Nat.lt_trichotomy (lower_bound a value) i) as [H | [H | H]].
      - specialize (Hhi (lower_bound a value) ltac:(lia)).
        specialize (Hlt _ H). lia.
      - exact H.
      - specialize (Hlo i H). lia. }
    split; [exact Hi | exact He].
  - destruct (Nat.eq_dec (lower_bound a value) (length a)) as [E | E]; [exact E |].
    specialize (Hhi (lower_bound a value) ltac:(lia)).
    specialize (Hf (lower_bound a value) ltac:(lia)). lia.
Qed.

Lemma kMmapSizeLevels_ascending : ascending kMmapSizeLevels.
Proof.
  intros i j Hij. simpl in Hij.
  do 16 (destruct i as [| i]; [do 16 (destruct j as [| j]; [vm_compute; congruence || lia |]); lia |]).
  lia.
Qed.

(** ** ComputeMmapSize *)

(** The two branches of [ComputeMmapSize] below the ceiling, with the table
    search read as a linear search. *)
Lemma ComputeMmapSize_accepted s req :
  req <= max_mmap_size_ s ->
  ComputeMmapSize s req =
    match find (fun e => req <=? e) kMmapSizeLevels with
    | Some e => Value e
    | None =>
        Value (Z.min (AlignTo (AlignTo req (max_mmap_step_ s)) (page_size_ s))
                     (max_mmap_size_ s))
    end.
Proof.
  intros Hle. unfold ComputeMmapSize.
  destruct (max_mmap_size_ s <? req) eqn:Hcmp; [apply Z.ltb_lt in Hcmp; lia |].
  pose proof (lower_bound_find kMmapSizeLevels req kMmapSizeLevels_ascending) as Hf.
  destruct (find _ kMmapSizeLevels) as [e |].
  - destruct Hf as [Hlt He].
    destruct (Nat.eqb_spec (lower_bound kMmapSizeLevels req) (length kMmapSizeLevels));
      [lia |].
    cbn [negb]. now rewrite He.
  - rewrite Hf, Nat.eqb_refl. reflexivity.
Qed.

Lemma ComputeMmapSize_rejected s req :
  max_mmap_size_ s < req -> ComputeMmapSize s req = UnExpected too_large_error.
Proof.
  intros Hlt. unfold ComputeMmapSize.
  destruct (max_mmap_size_ s <? req) eqn:Hcmp; [reflexivity |].
  apply Z.ltb_ge in Hcmp. lia.
Qed.

(** Every table entry is at most the last one, [2^30]. *)
Lemma find_level_le req e :
  find (fun e => req <=? e) kMmapSizeLevels = Some e -> req <= e <= 2 ^ 30.
Proof.
  intros Hf. pose proof (find_first_ge kMmapSizeLevels req) as H. rewrite Hf in H.
  destruct H as (i & Hi & He & Hge & _). split; [exact Hge |].
  rewrite <- He.
  change (2 ^ 30) with (nth 15 kMmapSizeLevels 0).
  apply kMmapSizeLevels_ascending. simpl in *. lia.
Qed.

Lemma find_level_none req :
  find (fun e => req <=? e) kMmapSizeLevels = None -> 2 ^ 30 < req.
Proof.
  intros Hf. pose proof (find_first_ge kMmapSizeLevels req) as H. rewrite Hf in H.
  apply (H 15%nat). simpl. lia.
Qed.

(** The linear search is monotone in the request. *)
Lemma find_level_mono a b ea eb :
  a <= b ->
  find (fun e => a <=? e) kMmapSizeLevels = Some ea ->
  find (fun e => b <=? e) kMmapSizeLevels = Some eb ->
  ea <= eb.
Proof.
  intros Hab Ha Hb.
  pose proof (find_first_ge kMmapSizeLevels a) as HA. rewrite Ha in HA.
  pose proof (find_first_ge kMmapSizeLevels b) as HB. rewrite Hb in HB.
  destruct HA as (i & Hi & <- & Hgea & Hlta).
  destruct HB as (j & Hj & <- & Hgeb & Hltb).
  destruct (le_lt_dec i j) as [Hij | Hji].
  - apply kMmapSizeLevels_ascending. lia.
  - specialize (Hlta j Hji). lia.
Qed.

(** C1, as amended. With the default ceiling and step and a page size [2^k]
    up to [2^31]: a request of 1 gets [2^15], a request of [2^20] gets
    [2^20], a request of [2^30 + 1] gets [2^31] (the next multiple of the
    step, which is a multiple of the page size), and every request above the
    ceiling gets the too-large error. *)
Theorem ComputeMmapSize_default_boundary k :
  0 <= k <= 31 ->
  ComputeMmapSize (MmapSizer_default (2 ^ k)) 1 = Value (2 ^ 15) /\
  ComputeMmapSize (MmapSizer_default (2 ^ k)) (2 ^ 20) = Value (2 ^ 20) /\
  ComputeMmapSize (MmapSizer_default (2 ^ k)) (2 ^ 30 + 1) = Value (2 ^ 31) /\
  forall x, kDefaultMaxMmapSize < x ->
    ComputeMmapSize (MmapSizer_default (2 ^ k)) x = UnExpected too_large_error.
Proof.
  intros Hk. split; [reflexivity |]. split; [reflexivity |]. split.
  2: { intros x Hx. apply ComputeMmapSize_rejected. exact Hx. }
  - rewrite ComputeMmapSize_accepted
      by (change (max_mmap_size_ _) with kDefaultMaxMmapSize;
          unfold kDefaultMaxMmapSize; lia).
    change (find _ kMmapSizeLevels) with (@None Z).
    cbn [MmapSizer_default MmapSizer_new max_mmap_step_ page_size_ max_mmap_size_].
    change (AlignTo (2 ^ 30 + 1) kDefaultMaxMmapStep) with (2 ^ 31).
    rewrite AlignTo_round_up; [| unfold SizeT.bits; lia | lia |].
    + unfold round_up.
      replace (2 ^ 31) with (2 ^ (31 - k) * 2 ^ k)
        by (rewrite <- Z.pow_add_r by lia; f_equal; lia).
      assert (0 < 2 ^ k) by (apply Z.pow_pos_nonneg; lia).
      replace (2 ^ (31 - k) * 2 ^ k + 2 ^ k - 1)
        with (2 ^ k - 1 + 2 ^ (31 - k) * 2 ^ k) by lia.
      rewrite Z.div_add by lia. rewrite (Z.div_small (2 ^ k - 1)) by lia.
      rewrite Z.add_0_l.
      rewrite <- Z.pow_add_r by lia. replace (31 - k + k) with 31 by lia.
      reflexivity.
    + assert (2 ^ k <= 2 ^ 31) by (apply Z.pow_le_mono_r; lia).
      unfold SizeT.modulus, SizeT.bits. lia.
Qed.

Lemma ComputeMmapSize_default_boundary_witness :
  0 <= 12 <= 31 /\
  ComputeMmapSize (MmapSizer_default kPageSize) (2 ^ 30 + 1) = Value (2 ^ 31).
Proof.
  split; [lia |]. apply (ComputeMmapSize_default_boundary 12). lia.
Defined.

(** C1 as stated fails: [2^30] rounded up to the page size is [2^30], and
    the request of [2^30 + 1] gets [2^31]. *)
Lemma ComputeMmapSize_boundary_not_1GiB :
  ComputeMmapSize (MmapSizer_default kPageSize) (2 ^ 30 + 1)
  <> Value (round_up (2 ^ 30) kPageSize).
Proof. vm_compute. discriminate. Qed.

(** Above the table, for power-of-two step and page size and a rounded size
    that fits, the two [AlignTo] calls are the two roundings. *)
Lemma ComputeMmapSize_above_table s req :
  req <= max_mmap_size_ s ->
  find (fun e => req <=? e) kMmapSizeLevels = None ->
  power_of_two (max_mmap_step_ s) -> power_of_two (page_size_ s) ->
  round_up (round_up req (max_mmap_step_ s)) (page_size_ s) < SizeT.modulus ->
  ComputeMmapSize s req =
    Value (Z.min (round_up (round_up req (max_mmap_step_ s)) (page_size_ s))
                 (max_mmap_size_ s)).
Proof.
  intros Hle Hnone (j & Hj & Ej) (k & Hk & Ek) Hfit.
  rewrite (ComputeMmapSize_accepted s req Hle), Hnone.
  apply find_level_none in Hnone.
  rewrite Ej, Ek in *. rewrite AlignTo_twice by (try assumption; lia).
  reflexivity.
Qed.

Lemma ComputeMmapSize_in_table s req e :
  req <= max_mmap_size_ s ->
  find (fun e => req <=? e) kMmapSizeLevels = Some e ->
  ComputeMmapSize s req = Value e.
Proof. intros Hle Hf. now rewrite (ComputeMmapSize_accepted s req Hle), Hf. Qed.

(** C2, as amended. For a request at or below the ceiling: if the table has
    an entry at or above the request, the first such entry is returned; if
    it has none and the step and the page size are powers of two and the
    request rounded up to the step and then to the page size fits in 64
    bits, that rounded size, clamped to the ceiling, is returned. *)
Theorem ComputeMmapSize_policy s req :
  req <= max_mmap_size_ s ->
  (forall e, find (fun e => req <=? e) kMmapSizeLevels = Some e ->
     ComputeMmapSize s req = Value e) /\
  (find (fun e => req <=? e) kMmapSizeLevels = None ->
   power_of_two (max_mmap_step_ s) -> power_of_two (page_size_ s) ->
   round_up (round_up req (max_mmap_step_ s)) (page_size_ s) < SizeT.modulus ->
   ComputeMmapSize s req =
     Value (Z.min (round_up (round_up req (max_mmap_step_ s)) (page_size_ s))
                  (max_mmap_size_ s))).
Proof.
  intros Hle. split.
  - intros e He. now apply ComputeMmapSize_in_table.
  - intros Hnone Hstep Hpage Hfit. now apply ComputeMmapSize_above_table.
Qed.

Lemma ComputeMmapSize_policy_witness :
  ComputeMmapSize (MmapSizer_default kPageSize) (2 ^ 30 + 1) =
    Value (Z.min (round_up (round_up (2 ^ 30 + 1) kDefaultMaxMmapStep) kPageSize)
                 kDefaultMaxMmapSize) /\
  ComputeMmapSize (MmapSizer_default kPageSize) (2 ^ 20 + 1) = Value (2 ^ 21).
Proof.
  split.
  - apply (ComputeMmapSize_policy (MmapSizer_default kPageSize) (2 ^ 30 + 1)).
    + vm_compute. discriminate.
    + reflexivity.
    + exists 30. split; [unfold SizeT.bits; lia | reflexivity].
    + exists 12. split; [unfold SizeT.bits; lia | reflexivity].
    + reflexivity.
  - apply (ComputeMmapSize_policy (MmapSizer_default kPageSize) (2 ^ 20 + 1)).
    + vm_compute. discriminate.
    + reflexivity.
Defined.

(** C2 as stated fails for a step that is not a power of two: with a step of
    3 GiB the request of [2^30 + 1] gets 4 GiB, not 3 GiB. *)
Lemma ComputeMmapSize_step_3GiB :
  ComputeMmapSize (MmapSizer_new kPageSize kDefaultMaxMmapSize (3 * 2 ^ 30)) (2 ^ 30 + 1)
  <> spec_ComputeMmapSize (MmapSizer_new kPageSize kDefaultMaxMmapSize (3 * 2 ^ 30))
       (2 ^ 30 + 1).
Proof. vm_compute. discriminate. Qed.

Example step_3GiB_values :
  ComputeMmapSize (MmapSizer_new kPageSize kDefaultMaxMmapSize (3 * 2 ^ 30)) (2 ^ 30 + 1)
    = Value (4 * 2 ^ 30) /\
  spec_ComputeMmapSize (MmapSizer_new kPageSize kDefaultMaxMmapSize (3 * 2 ^ 30))
    (2 ^ 30 + 1) = Value (3 * 2 ^ 30).
Proof. split; vm_compute; reflexivity. Qed.

(** The same for a rounding that passes [SIZE_MAX]: the sum wraps and the
    result is 0. *)
Example rounding_wraps_to_zero :
  ComputeMmapSize (MmapSizer_new kPageSize SizeT.SIZE_MAX kDefaultMaxMmapStep)
    SizeT.SIZE_MAX = Value 0 /\
  spec_ComputeMmapSize (MmapSizer_new kPageSize SizeT.SIZE_MAX kDefaultMaxMmapStep)
    SizeT.SIZE_MAX = Value SizeT.SIZE_MAX.
Proof. split; vm_compute; reflexivity. Qed.

(** Under the conditions of C2 the code and the policy in the
    specification's words are the same function. *)
Lemma ComputeMmapSize_refines_spec s req :
  power_of_two (max_mmap_step_ s) -> power_of_two (page_size_ s) ->
  round_up (round_up req (max_mmap_step_ s)) (page_size_ s) < SizeT.modulus ->
  ComputeMmapSize s req = spec_ComputeMmapSize s req.
Proof.
  intros Hstep Hpage Hfit. unfold spec_ComputeMmapSize.
  destruct (max_mmap_size_ s <? req) eqn:Hcmp.
  - apply ComputeMmapSize_rejected. now apply Z.ltb_lt.
  - apply Z.ltb_ge in Hcmp.
    destruct (find _ kMmapSizeLevels) as [e |] eqn:Hf.
    + now apply ComputeMmapSize_in_table.
    + now apply ComputeMmapSize_above_table.
Qed.

(** C3, as amended. When the step and the page size are powers of two and
    the larger request, rounded up to both, fits in 64 bits, a larger
    request never gets a smaller size. *)
Theorem ComputeMmapSize_monotone s a b va vb :
  power_of_two (max_mmap_step_ s) -> power_of_two (page_size_ s) ->
  round_up (round_up b (max_mmap_step_ s)) (page_size_ s) < SizeT.modulus ->
  a <= b ->
  ComputeMmapSize s a = Value va -> ComputeMmapSize s b = Value vb ->
  va <= vb.
Proof.
  intros Hstep Hpage Hfit Hab Ha Hb.
  assert (Hpos : 0 < max_mmap_step_ s /\ 0 < page_size_ s).
  { destruct Hstep as (j & Hj & ->), Hpage as (k & Hk & ->).
    split; apply Z.pow_pos_nonneg; lia. }
  destruct Hpos as [Hps Hpp].
  assert (Hmono : round_up (round_up a (max_mmap_step_ s)) (page_size_ s)
                  <= round_up (round_up b (max_mmap_step_ s)) (page_size_ s)).
  { apply round_up_mono; [lia |]. apply round_up_mono; lia. }
  rewrite ComputeMmapSize_refines_spec in Ha by (try assumption; lia).
  rewrite ComputeMmapSize_refines_spec in Hb by assumption.
  unfold spec_ComputeMmapSize in Ha, Hb.
  destruct (max_mmap_size_ s <? a) eqn:Ca; [discriminate |].
  destruct (max_mmap_size_ s <? b) eqn:Cb; [discriminate |].
  apply Z.ltb_ge in Ca, Cb.
  destruct (find (fun e => a <=? e) kMmapSizeLevels) as [ea |] eqn:Fa;
    destruct (find (fun e => b <=? e) kMmapSizeLevels) as [eb |] eqn:Fb;
    injection Ha as <-; injection Hb as <-.
  - apply (find_level_mono a b); assumption.
  - apply find_level_le in Fa. apply find_level_none in Fb.
    pose proof (round_up_ge b (max_mmap_step_ s) Hps).
    pose proof (round_up_ge (round_up b (max_mmap_step_ s)) (page_size_ s) Hpp).
    lia.
  - apply find_level_none in Fa. apply find_level_le in Fb. lia.
  - lia.
Qed.

Lemma ComputeMmapSize_monotone_witness :
  ComputeMmapSize (MmapSizer_default kPageSize) (2 ^ 20 - 1) = Value (2 ^ 20) /\
  ComputeMmapSize (MmapSizer_default kPageSize) (2 ^ 30 + 1) = Value (2 ^ 31) /\
  2 ^ 20 <= 2 ^ 31.
Proof.
  split; [reflexivity |]. split; [reflexivity |].
  apply (ComputeMmapSize_monotone (MmapSizer_default kPageSize)
           (2 ^ 20 - 1) (2 ^ 30 + 1) (2 ^ 20) (2 ^ 31)).
  - exists 30. split; [unfold SizeT.bits; lia | reflexivity].
  - exists 12. split; [unfold SizeT.bits; lia | reflexivity].
  - reflexivity.
  - lia.
  - reflexivity.
  - reflexivity.
Defined.

(** C3 as stated fails when the rounding wraps: with the ceiling at
    [SIZE_MAX] the request [2^31] gets [2^31] and the larger request
    [SIZE_MAX] gets 0; neither is rejected. *)
Lemma ComputeMmapSize_not_monotone :
  ~ (forall s a b va vb, a <= b ->
       ComputeMmapSize s a = Value va -> ComputeMmapSize s b = Value vb ->
       va <= vb).
Proof.
  intros H.
  specialize (H (MmapSizer_new kPageSize SizeT.SIZE_MAX kDefaultMaxMmapStep)
                (2 ^ 31) SizeT.SIZE_MAX (2 ^ 31) 0).
  assert (2 ^ 31 <= 0) as Habs; [| lia].
  apply H; [unfold SizeT.SIZE_MAX, SizeT.modulus, SizeT.bits; lia | |];
    vm_compute; reflexivity.
Qed.

(** Nor is it monotone for a step that is not a power of two, here 3 GiB,
    without any wrap-around. *)
Example step_3GiB_goes_down :
  ComputeMmapSize (MmapSizer_new kPageSize kDefaultMaxMmapSize (3 * 2 ^ 30))
    (2 ^ 31 + 1) = Value (5 * 2 ^ 30) /\
  ComputeMmapSize (MmapSizer_new kPageSize kDefaultMaxMmapSize (3 * 2 ^ 30))
    (3 * 2 ^ 30 + 1) = Value (4 * 2 ^ 30).
Proof. split; vm_compute; reflexivity. Qed.

(** C4. [ComputeMmapSize] gives an error exactly when the request is above
    the ceiling; the error is the result's failure alternative holding the
    too-large code, whatever the step and the page size are. *)
Theorem ComputeMmapSize_error_iff s req :
  (has_value (ComputeMmapSize s req) = false <-> max_mmap_size_ s < req) /\
  (has_value (ComputeMmapSize s req) = false ->
   forall page_size max_mmap_step,
     ComputeMmapSize (MmapSizer_new page_size (max_mmap_size_ s) max_mmap_step) req
     = UnExpected too_large_error) /\
  (has_value (ComputeMmapSize s req) = true ->
   exists v, ComputeMmapSize s req = Value v).
Proof.
  assert (Hiff : has_value (ComputeMmapSize s req) = false <-> max_mmap_size_ s < req).
  { split.
    - intros Hv. destruct (Z.lt_ge_cases (max_mmap_size_ s) req) as [H | H]; [exact H |].
      rewrite ComputeMmapSize_accepted in Hv by lia.
      destruct (find _ kMmapSizeLevels); discriminate.
    - intros Hlt. now rewrite ComputeMmapSize_rejected. }
  split; [exact Hiff |]. split.
  - intros Hv page_size max_mmap_step. apply ComputeMmapSize_rejected.
    cbn. now apply Hiff.
  - intros Hv. destruct (ComputeMmapSize s req) as [v | e]; [now exists v | discriminate].
Qed.

(** The code of the rejection carries the value of [kMmapTooLarge] in the
    generic category, which is where the cast to [std::errc] puts it. *)
Example too_large_error_category :
  ec_value too_large_error = DBErrorCode_value kMmapTooLarge /\
  ec_category too_large_error = generic_category /\
  too_large_error <> MakeErrorCode kMmapTooLarge.
Proof. repeat split. discriminate. Qed.

(** ** Links stored in page bytes *)

Lemma ptr_to_bytes_length n v : length (ptr_to_bytes n v) = n.
Proof. revert v. induction n as [| n IH]; intros v; simpl; [reflexivity | now rewrite IH]. Qed.

(** Copying a pointer out of the bytes it was copied into gives it back. *)
Lemma bytes_to_ptr_to_bytes n v :
  0 <= v < 256 ^ Z.of_nat n -> bytes_to_ptr (ptr_to_bytes n v) = v.
Proof.
  revert v. induction n as [| n IH]; intros v Hv.
  - simpl in *. lia.
  - cbn [ptr_to_bytes bytes_to_ptr].
    rewrite Nat2Z.inj_succ, Z.pow_succ_r in Hv by lia.
    rewrite IH.
    + pose proof (Z.div_mod v 256 ltac:(lia)). lia.
    + split; [apply Z.div_pos; lia | apply Z.div_lt_upper_bound; lia].
Qed.

Lemma load_store_link v page :
  0 <= v < SizeT.modulus -> load_link (store_link v page) = v.
Proof.
  intros Hv. unfold load_link, store_link.
  rewrite take_app_length' by (symmetry; apply ptr_to_bytes_length).
  apply bytes_to_ptr_to_bytes. exact Hv.
Qed.

(** Writing the same link twice is writing it once. *)
Lemma store_link_twice v page :
  store_link v (store_link v page) = store_link v page.
Proof.
  unfold store_link. rewrite drop_app_length' by (symmetry; apply ptr_to_bytes_length).
  reflexivity.
Qed.

(** ** The victim-list loops run to their end *)

Section PagePoolFacts.

Variable N : nat.
Variable operator_new : gmap Z (list Z) -> option (Z * list Z).

Lemma steal_loop_unfold fuel sp head st :
  steal_loop (S fuel) sp head st =
    if head =? nullptr then Done (nullptr, st)
    else
      let next := load_link (page_bytes st head) in
      let '(ok, atom, head') :=
        compare_exchange_weak (hd false sp) (victim_head_ st) head next in
      if ok then Done (head, set_victim_head atom st)
      else steal_loop fuel (tl sp) head' st.
Proof. reflexivity. Qed.

Lemma add_loop_unfold fuel sp p head st :
  add_loop (S fuel) sp p head st =
    let st1 := set_heap (alter (store_link head) p (heap st)) st in
    let '(ok, atom, head') :=
      compare_exchange_weak (hd false sp) (victim_head_ st1) head p in
    if ok then Done (set_victim_head atom st1)
    else add_loop fuel (tl sp) p head' st1.
Proof. reflexivity. Qed.

(** A spurious failure leaves everything as it was, so whatever [sp] says the
    steal pops the head, and it does so within the loop budget. *)
Lemma StealFromVictimList_eq sp st :
  StealFromVictimList sp st =
    if victim_head_ st =? nullptr then Done (nullptr, st)
    else Done (victim_head_ st,
               set_victim_head (load_link (page_bytes st (victim_head_ st))) st).
Proof.
  unfold StealFromVictimList.
  induction sp as [| b sp IH]; cbn [length]; rewrite steal_loop_unfold.
  - destruct (victim_head_ st =? nullptr); [reflexivity |].
    unfold compare_exchange_weak. cbn [hd negb andb].
    now rewrite Z.eqb_refl.
  - destruct (victim_head_ st =? nullptr) eqn:Hnull; [reflexivity |].
    unfold compare_exchange_weak. cbn [hd tl].
    destruct b; cbn [negb andb].
    + rewrite IH. reflexivity.
    + now rewrite Z.eqb_refl.
Qed.

(** Likewise the push links [p] in front of the head, whatever [sp] says. *)
Lemma AddToVictimList_eq sp p st :
  AddToVictimList sp p st =
    Done (set_victim_head p
            (set_heap (alter (store_link (victim_head_ st)) p (heap st)) st)).
Proof.
  unfold AddToVictimList. revert st.
  induction sp as [| b sp IH]; intros st; cbn [length]; rewrite add_loop_unfold.
  - unfold compare_exchange_weak. cbn [hd negb andb set_heap victim_head_].
    now rewrite Z.eqb_refl.
  - unfold compare_exchange_weak. cbn [hd tl].
    destruct b; cbn [negb andb set_heap victim_head_].
    + specialize (IH (set_heap (alter (store_link (victim_head_ st)) p (heap st)) st)).
      cbn [set_heap victim_head_ heap] in IH. rewrite IH.
      unfold set_victim_head, set_heap. cbn. do 2 f_equal.
      rewrite alter_alter_eq. apply alter_ext.
      intros bytes _. apply store_link_twice.
    + now rewrite Z.eqb_refl.
Qed.

(** *** The cache *)

Lemma cache_of_set_cache t c st : cache_of N (set_cache t c st) t = c.
Proof. unfold cache_of, set_cache. cbn. now rewrite lookup_insert_eq. Qed.

Lemma cache_of_set_victim_head v st t :
  cache_of N (set_victim_head v st) t = cache_of N st t.
Proof. reflexivity. Qed.

Lemma cache_of_set_heap h st t : cache_of N (set_heap h st) t = cache_of N st t.
Proof. reflexivity. Qed.

Lemma cache_of_log_call c st t : cache_of N (log_call c st) t = cache_of N st t.
Proof. reflexivity. Qed.

Lemma cache_of_invoke_reset p st t : cache_of N (invoke_reset p st) t = cache_of N st t.
Proof. reflexivity. Qed.

Create Rewrite HintDb pool.
#[local] Hint Rewrite cache_of_set_victim_head cache_of_set_heap cache_of_log_call
  cache_of_invoke_reset cache_of_set_cache : pool.

Lemma cache_ok_init : cache_ok N (ThreadLocalCache_init N).
Proof.
  unfold cache_ok, ThreadLocalCache_init. cbn. split; [apply length_replicate |].
  split; [lia |]. intros i p Hi. lia.
Qed.

(** A non-empty cache pops its top entry, which is not null. *)
Lemma TryPop_hit c :
  cache_ok N c -> top c <> 0%nat ->
  exists p, stack c !! (top c - 1)%nat = Some p /\ p <> nullptr /\
            TryPop c = (p, mkCache (stack c) (top c - 1)).
Proof.
  intros (Hlen & Htop & Hnz) Hne.
  destruct (lookup_lt_is_Some_2 (stack c) (top c - 1)%nat ltac:(lia)) as [p Hp].
  exists p. split; [exact Hp |]. split; [apply (Hnz (top c - 1)%nat); [lia | exact Hp] |].
  unfold TryPop, IsEmpty. destruct (Nat.eqb_spec (top c) 0); [lia |].
  now rewrite (nth_lookup_Some _ _ nullptr _ Hp).
Qed.

Lemma TryPop_miss c : top c = 0%nat -> TryPop c = (nullptr, c).
Proof. intros H. unfold TryPop, IsEmpty. now rewrite H. Qed.

(** *** Get *)

(** A cache hit. *)
Lemma Get_hit t sp st :
  cache_ok N (cache_of N st t) -> top (cache_of N st t) <> 0%nat ->
  exists p, stack (cache_of N st t) !! (top (cache_of N st t) - 1)%nat = Some p /\
    p <> nullptr /\
    Get N operator_new t sp st =
      Done (p, set_cache t (mkCache (stack (cache_of N st t))
                                    (top (cache_of N st t) - 1)) st).
Proof.
  intros Hok Hne. destruct (TryPop_hit _ Hok Hne) as (p & Hp & Hnz & Hpop).
  exists p. split; [exact Hp |]. split; [exact Hnz |].
  unfold Get, TryAcquireFromLocalCache. rewrite Hpop.
  destruct (Z.eqb_spec p nullptr); [contradiction | reflexivity].
Qed.

(** A cache miss: the victim list, then the heap. *)
Lemma Get_miss t sp st :
  top (cache_of N st t) = 0%nat ->
  Get N operator_new t sp st =
    if victim_head_ st =? nullptr
    then new_PageData operator_new (set_cache t (cache_of N st t) st)
    else Done (victim_head_ st,
               set_victim_head (load_link (page_bytes st (victim_head_ st)))
                 (set_cache t (cache_of N st t) st)).
Proof.
  intros Hz. unfold Get, TryAcquireFromLocalCache.
  rewrite (TryPop_miss _ Hz). cbn [negb Z.eqb nullptr].
  rewrite StealFromVictimList_eq. cbn [set_cache victim_head_].
  destruct (Z.eqb_spec (victim_head_ st) nullptr) as [E | E].
  - reflexivity.
  - destruct (Z.eqb_spec (victim_head_ st) nullptr); [contradiction | reflexivity].
Qed.

(** C6. [Get] returns the top of the calling thread's cache when the cache
    is not empty; otherwise the head of the victim list, which it unlinks,
    when there is one; otherwise the page [new] gives, or it leaves by the
    allocation's exception. It never returns null, never runs out of the
    loop budget, and writes no byte of any live page. *)
Theorem Get_order t sp st :
  cache_ok N (cache_of N st t) -> allocator_ok operator_new ->
  (top (cache_of N st t) <> 0%nat ->
   exists p, stack (cache_of N st t) !! (top (cache_of N st t) - 1)%nat = Some p /\
     Get N operator_new t sp st =
       Done (p, set_cache t (mkCache (stack (cache_of N st t))
                                     (top (cache_of N st t) - 1)) st)) /\
  (top (cache_of N st t) = 0%nat -> victim_head_ st <> nullptr ->
   Get N operator_new t sp st =
     Done (victim_head_ st,
           set_victim_head (load_link (page_bytes st (victim_head_ st)))
             (set_cache t (cache_of N st t) st))) /\
  (top (cache_of N st t) = 0%nat -> victim_head_ st = nullptr ->
   Get N operator_new t sp st =
     match operator_new (heap st) with
     | Some (p, bytes) =>
         Done (p, log_call (CallNew p)
                    (set_heap (<[p := bytes]> (heap st))
                       (set_cache t (cache_of N st t) st)))
     | None => Threw_bad_alloc
     end) /\
  Get N operator_new t sp st <> Out_of_fuel /\
  (forall p st', Get N operator_new t sp st = Done (p, st') ->
     p <> nullptr /\
     forall q bytes, heap st !! q = Some bytes -> heap st' !! q = Some bytes).
Proof.
  intros Hok Halloc.
  pose proof (Get_hit t sp st Hok) as Hhit.
  pose proof (Get_miss t sp st) as Hmiss.
  split; [| split; [| split; [| split]]].
  - intros Hne. destruct (Hhit Hne) as (p & Hp & _ & HG). now exists p.
  - intros Hz Hv. rewrite (Hmiss Hz).
    destruct (Z.eqb_spec (victim_head_ st) nullptr); [contradiction | reflexivity].
  - intros Hz Hv. rewrite (Hmiss Hz), Hv. cbn [Z.eqb nullptr].
    unfold new_PageData. cbn [set_cache heap]. reflexivity.
  - destruct (Nat.eq_dec (top (cache_of N st t)) 0%nat) as [Hz | Hne].
    + rewrite (Hmiss Hz). destruct (victim_head_ st =? nullptr); [| discriminate].
      unfold new_PageData. destruct (operator_new _) as [[p bytes] |]; discriminate.
    + destruct (Hhit Hne) as (p & _ & _ & ->). discriminate.
  - intros p st' HG.
    destruct (Nat.eq_dec (top (cache_of N st t)) 0%nat) as [Hz | Hne].
    + rewrite (Hmiss Hz) in HG.
      destruct (Z.eqb_spec (victim_head_ st) nullptr) as [E | E].
      * unfold new_PageData in HG. cbn [set_cache heap] in HG.
        destruct (operator_new (heap st)) as [[p' bytes'] |] eqn:Hnew; [| discriminate].
        injection HG as <- <-. destruct (Halloc _ _ _ Hnew) as [Hrange Hfresh].
        split; [unfold nullptr; lia |].
        intros q bytes Hq. cbn. rewrite lookup_insert_ne; [exact Hq | congruence].
      * injection HG as <- <-. split; [exact E |]. intros q bytes Hq. exact Hq.
    + destruct (Hhit Hne) as (p' & _ & Hnz & HG'). rewrite HG' in HG.
      injection HG as <- <-. split; [exact Hnz |]. intros q bytes Hq. exact Hq.
Qed.

(** *** The victim list *)

(** Two heaps that agree on the pages linked from [head] link the same
    pages from it. *)
Lemma on_victim_list_agree h h' head q :
  (forall x, on_victim_list h head x -> h' !! x = h !! x) ->
  on_victim_list h head q -> on_victim_list h' head q.
Proof.
  intros Hagree Hq. induction Hq as [head Hnz | head bytes q Hnz Hb Hq IH].
  - now apply ovl_head.
  - apply ovl_next with bytes; [exact Hnz | |].
    + rewrite Hagree; [exact Hb | now apply ovl_head].
    + apply IH. intros x Hx. apply Hagree. now apply ovl_next with bytes.
Qed.

Lemma on_victim_list_agree_back h h' head q :
  (forall x, on_victim_list h head x -> h' !! x = h !! x) ->
  on_victim_list h' head q -> on_victim_list h head q.
Proof.
  intros Hagree Hq. induction Hq as [head Hnz | head bytes q Hnz Hb Hq IH].
  - now apply ovl_head.
  - assert (Hb' : h !! head = Some bytes)
      by (rewrite <- Hagree; [exact Hb | now apply ovl_head]).
    apply ovl_next with bytes; [exact Hnz | exact Hb' |].
    apply IH. intros x Hx. apply Hagree. now apply ovl_next with bytes.
Qed.

(** Changing the bytes of a page that is not on the list does not put it on
    the list. *)
Lemma on_victim_list_alter f p h head :
  ~ on_victim_list h head p -> ~ on_victim_list (alter f p h) head p.
Proof.
  intros Hnot Hq. apply Hnot.
  apply on_victim_list_agree_back with (alter f p h); [| exact Hq].
  intros x Hx. apply lookup_alter_ne. intros ->. contradiction.
Qed.

(** *** Put *)

(** C7. [Put(nullptr)] returns at once: the pool, the heap and the log of
    calls, hence the reset callback, the caches and the victim list, are
    untouched. *)
Theorem Put_null t sp st : Put N t sp nullptr st = Done st.
Proof. reflexivity. Qed.

(** What [Put] does with a page, by the state of the caller's cache. *)
Lemma Put_eq t sp p st :
  p <> nullptr ->
  Put N t sp p st =
    if IsFull N (cache_of N st t)
    then Done (set_victim_head p
                 (set_heap (alter (store_link (victim_head_ st)) p
                              (alter (reset_fn_ st) p (heap st)))
                    (set_cache t (cache_of N st t) (invoke_reset p st))))
    else Done (set_cache t (mkCache (<[top (cache_of N st t) := p]>
                                       (stack (cache_of N st t)))
                                    (S (top (cache_of N st t))))
                 (invoke_reset p st)).
Proof.
  intros Hnz. unfold Put. destruct (Z.eqb_spec p nullptr); [contradiction |].
  unfold ReturnToLocalCache, TryPush.
  change (cache_of N (invoke_reset p st) t) with (cache_of N st t).
  destruct (IsFull N (cache_of N st t)); [| reflexivity].
  rewrite AddToVictimList_eq. reflexivity.
Qed.

(** A page pushed on the victim list carries the old head in its first
    bytes, so the pages that were on the list stay on it, behind the page. *)
Lemma Put_overflow_links t sp p st st' bytes :
  p <> nullptr -> IsFull N (cache_of N st t) = true ->
  heap st !! p = Some bytes -> 0 <= victim_head_ st < SizeT.modulus ->
  ~ in_victim_list st p ->
  Put N t sp p st = Done st' ->
  load_link (page_bytes st' p) = victim_head_ st /\
  forall q, in_victim_list st q -> in_victim_list st' q.
Proof.
  intros Hnz Hfull Hlive Hrange Hout HP.
  rewrite (Put_eq t sp p st Hnz), Hfull in HP. injection HP as <-.
  assert (Hp : alter (store_link (victim_head_ st)) p
                 (alter (reset_fn_ st) p (heap st)) !! p
               = Some (store_link (victim_head_ st) (reset_fn_ st bytes))).
  { now rewrite !lookup_alter_eq, Hlive. }
  split.
  - unfold page_bytes. cbn. rewrite Hp. cbn. now apply load_store_link.
  - intros q Hq. unfold in_victim_list. cbn.
    eapply ovl_next; [exact Hnz | exact Hp |].
    rewrite load_store_link by exact Hrange.
    apply on_victim_list_agree with (heap st); [| exact Hq].
    intros x Hx. rewrite !lookup_alter_ne; [reflexivity | |]; intros ->; contradiction.
Qed.

(** *** The cache stays in shape *)

Lemma Put_cache_ok t sp p st st' :
  p <> nullptr -> cache_ok N (cache_of N st t) ->
  Put N t sp p st = Done st' -> cache_ok N (cache_of N st' t).
Proof.
  intros Hnz Hok HP. rewrite (Put_eq t sp p st Hnz) in HP.
  destruct (IsFull N (cache_of N st t)) eqn:Hfull; injection HP as <-;
    autorewrite with pool; [exact Hok |].
  apply Nat.leb_gt in Hfull. destruct Hok as (Hlen & Htop & Hent).
  split; [cbn; now rewrite length_insert |]. split; [cbn; lia |].
  cbn [top stack]. intros i q Hi Hq.
  destruct (Nat.eq_dec i (top (cache_of N st t))) as [-> | Hne].
  - rewrite list_lookup_insert_eq in Hq by lia. congruence.
  - rewrite list_lookup_insert_ne in Hq by congruence. apply (Hent i); [lia | exact Hq].
Qed.

Lemma Get_cache_ok t sp st p st' :
  cache_ok N (cache_of N st t) ->
  Get N operator_new t sp st = Done (p, st') -> cache_ok N (cache_of N st' t).
Proof.
  intros Hok HG.
  destruct (Nat.eq_dec (top (cache_of N st t)) 0%nat) as [Hz | Hne].
  - rewrite (Get_miss t sp st Hz) in HG.
    destruct (victim_head_ st =? nullptr).
    + unfold new_PageData in HG.
      destruct (operator_new _) as [[p' bytes] |]; [| discriminate].
      injection HG as <- <-. now autorewrite with pool.
    + injection HG as <- <-. now autorewrite with pool.
  - destruct (Get_hit t sp st Hok Hne) as (p' & _ & _ & HG').
    rewrite HG' in HG. injection HG as <- <-. autorewrite with pool.
    destruct Hok as (Hlen & Htop & Hent).
    split; [exact Hlen |]. split; [cbn; lia |].
    cbn [top stack]. intros i q Hi Hq. apply (Hent i); [lia | exact Hq].
Qed.

(** *** Get after Put *)

(** What a returning [Get] leaves in the caller's cache: a free slot, or
    nothing at all. *)
Lemma Get_Done_cache t sp st p st1 :
  cache_ok N (cache_of N st t) -> allocator_ok operator_new ->
  Get N operator_new t sp st = Done (p, st1) ->
  p <> nullptr /\
  length (stack (cache_of N st1 t)) = N /\
  ((top (cache_of N st1 t) < N)%nat \/ top (cache_of N st1 t) = 0%nat).
Proof.
  intros Hok Halloc HG. pose proof Hok as (Hlen & Htop & _).
  destruct (Nat.eq_dec (top (cache_of N st t)) 0%nat) as [Hz | Hne].
  - rewrite (Get_miss t sp st Hz) in HG.
    destruct (Z.eqb_spec (victim_head_ st) nullptr) as [E | E].
    + unfold new_PageData in HG. cbn [set_cache heap] in HG.
      destruct (operator_new (heap st)) as [[p' bytes] |] eqn:Hnew; [| discriminate].
      injection HG as <- <-. destruct (Halloc _ _ _ Hnew) as [Hrange _].
      autorewrite with pool. split; [unfold nullptr; lia |].
      split; [exact Hlen | now right].
    + injection HG as <- <-. autorewrite with pool.
      split; [exact E |]. split; [exact Hlen | now right].
  - destruct (Get_hit t sp st Hok Hne) as (p' & _ & Hnz & HG').
    rewrite HG' in HG. injection HG as <- <-.
    autorewrite with pool. cbn [stack top].
    split; [exact Hnz |]. split; [exact Hlen | left; lia].
Qed.

(** C8. When [Get] has returned a page, returning it with [Put] and calling
    [Get] again, all on one thread, gives the same page; the only outside
    call made on the way is the reset callback, so nothing is allocated. *)
Theorem Get_Put_Get t sp1 sp2 sp3 st p st1 :
  cache_ok N (cache_of N st t) -> allocator_ok operator_new ->
  Get N operator_new t sp1 st = Done (p, st1) ->
  exists st2 st3,
    Put N t sp2 p st1 = Done st2 /\
    Get N operator_new t sp3 st2 = Done (p, st3) /\
    calls st3 = calls st1 ++ [CallReset p].
Proof.
  intros Hok Halloc HG.
  destruct (Get_Done_cache t sp1 st p st1 Hok Halloc HG) as (Hnz & Hlen & Hroom).
  rewrite (Put_eq t sp2 p st1 Hnz).
  assert (Hpz : (p =? nullptr) = false) by now apply Z.eqb_neq.
  destruct (IsFull N (cache_of N st1 t)) eqn:Hfull.
  - apply Nat.leb_le in Hfull.
    assert (Hz : top (cache_of N st1 t) = 0%nat) by lia.
    eexists. eexists. split; [reflexivity |].
    unfold Get, TryAcquireFromLocalCache. autorewrite with pool.
    rewrite (TryPop_miss _ Hz). cbn [negb Z.eqb nullptr].
    rewrite StealFromVictimList_eq. cbn [set_cache set_victim_head victim_head_].
    rewrite !Hpz. cbn [negb]. split; reflexivity.
  - apply Nat.leb_gt in Hfull.
    eexists. eexists. split; [reflexivity |].
    unfold Get, TryAcquireFromLocalCache. autorewrite with pool.
    unfold TryPop, IsEmpty. cbn [top stack Nat.eqb].
    replace (S (top (cache_of N st1 t)) - 1)%nat with (top (cache_of N st1 t)) by lia.
    rewrite (nth_lookup_Some _ _ nullptr p)
      by (apply list_lookup_insert_eq; lia).
    rewrite !Hpz. cbn [negb]. split; reflexivity.
Qed.

(** *** Drain *)

Lemma delete_PageData_fields st p :
  victim_head_ (delete_PageData st p) = victim_head_ st /\
  local_cache_ (delete_PageData st p) = local_cache_ st /\
  reset_fn_ (delete_PageData st p) = reset_fn_ st.
Proof. unfold delete_PageData. destruct (p =? nullptr); repeat split. Qed.

(** Deleting the pages [ps] one after the other: the pool's members stay,
    the pages of [ps] are no longer live, the other pages are as before, and
    the calls made are the deletions, in order. *)
Lemma delete_all st ps :
  let st' := foldl delete_PageData st ps in
  victim_head_ st' = victim_head_ st /\
  local_cache_ st' = local_cache_ st /\
  (forall p, p ∈ ps -> p <> nullptr -> heap st' !! p = None) /\
  (forall q, q ∉ ps -> heap st' !! q = heap st !! q) /\
  calls st' = calls st ++ map CallDelete (filter (fun p => p <> nullptr) ps).
Proof.
  revert st. induction ps as [| p ps IH]; intros st; cbn [foldl].
  - repeat split; [intros p Hp; now apply elem_of_nil in Hp | now rewrite app_nil_r].
  - destruct (IH (delete_PageData st p)) as (Hv & Hc & Hdel & Hkeep & Hcalls).
    destruct (delete_PageData_fields st p) as (Hv1 & Hc1 & _).
    split; [congruence |]. split; [congruence |]. split; [| split].
    + intros q Hq Hnz.
      destruct (decide (q ∈ ps)) as [Hin | Hout]; [now apply Hdel |].
      apply elem_of_cons in Hq as [-> | Hq]; [| contradiction].
      rewrite (Hkeep _ Hout). unfold delete_PageData.
      destruct (Z.eqb_spec p nullptr); [contradiction |]. cbn. apply lookup_delete_eq.
    + intros q Hq. apply not_elem_of_cons in Hq as [Hne Hout].
      rewrite (Hkeep _ Hout). unfold delete_PageData.
      destruct (p =? nullptr); [reflexivity |]. cbn. now apply lookup_delete_ne.
    + rewrite Hcalls. unfold delete_PageData. rewrite filter_cons.
      destruct (Z.eqb_spec p nullptr) as [E | E].
      * rewrite decide_False by (intros H; now apply H). reflexivity.
      * rewrite decide_True by exact E. cbn. now rewrite <- app_assoc.
Qed.

Lemma foldl_nth_map (st : PagePool) (l : list Z) (idx : list nat) :
  foldl (fun s i => delete_PageData s (nth i l nullptr)) st idx =
  foldl delete_PageData st (map (fun i => nth i l nullptr) idx).
Proof. revert st. induction idx as [| i idx IH]; intros st; cbn; [reflexivity | apply IH]. Qed.

(** The pages [Drain] visits are the entries of the cache. *)
Lemma drained_pages_local st t p :
  p <> nullptr ->
  p ∈ map (fun i => nth i (stack (cache_of N st t)) nullptr)
          (seq 0 (top (cache_of N st t)))
  <-> in_local_cache N st t p.
Proof.
  intros Hnz. rewrite list_elem_of_fmap. split.
  - intros (i & -> & Hi). apply elem_of_seq in Hi. exists i. split; [lia |].
    destruct (stack (cache_of N st t) !! i) as [x |] eqn:Hx.
    + now rewrite (nth_lookup_Some _ _ nullptr _ Hx).
    + exfalso. apply Hnz. apply nth_overflow. now apply lookup_ge_None.
  - intros (i & Hi & Hp). exists i. split.
    + now rewrite (nth_lookup_Some _ _ nullptr _ Hp).
    + apply elem_of_seq. lia.
Qed.

(** C9. Destroying a thread's cache deletes every page it holds and makes no
    other outside call; the cache is left empty; the head of the victim
    list and the bytes of every page the cache did not hold are as before,
    so a victim list that shares no page with the cache links the same pages
    afterwards: none was added to it. *)
Theorem Drain_deletes_held t st :
  victim_head_ (ThreadLocalCache_destroy N t st) = victim_head_ st /\
  top (cache_of N (ThreadLocalCache_destroy N t st) t) = 0%nat /\
  (forall p, p <> nullptr -> in_local_cache N st t p ->
     heap (ThreadLocalCache_destroy N t st) !! p = None) /\
  (forall q, ~ in_local_cache N st t q ->
     heap (ThreadLocalCache_destroy N t st) !! q = heap st !! q) /\
  (exists ps, calls (ThreadLocalCache_destroy N t st) = calls st ++ map CallDelete ps /\
     forall p, p ∈ ps <-> p <> nullptr /\ in_local_cache N st t p) /\
  ((forall q, in_local_cache N st t q -> ~ in_victim_list st q) ->
   forall q, in_victim_list (ThreadLocalCache_destroy N t st) q <-> in_victim_list st q).
Proof.
  unfold ThreadLocalCache_destroy, Drain. rewrite foldl_nth_map.
  set (ps := map _ (seq 0 _)).
  destruct (delete_all st ps) as (Hv & Hc & Hdel & Hkeep & Hcalls).
  assert (Hheap : forall q, ~ in_local_cache N st t q ->
            heap (foldl delete_PageData st ps) !! q = heap st !! q).
  { intros q Hq. destruct (decide (q ∈ ps)) as [Hin | Hout]; [| now apply Hkeep].
    destruct (Z.eq_dec q nullptr) as [-> | Hnz].
    - assert (Hnull : forall s, heap (foldl delete_PageData s ps) !! nullptr
                                = heap s !! nullptr); [| apply Hnull].
      clear. induction ps as [| p ps IH]; intros s; cbn [foldl]; [reflexivity |].
      rewrite IH. unfold delete_PageData.
      destruct (Z.eqb_spec p nullptr); [reflexivity |]. cbn. now apply lookup_delete_ne.
    - exfalso. apply Hq. now apply drained_pages_local. }
  split; [exact Hv |]. split; [now autorewrite with pool |].
  split; [| split; [| split]].
  - intros p Hnz Hp. cbn. apply Hdel; [| exact Hnz]. now apply drained_pages_local.
  - intros q Hq. cbn. now apply Hheap.
  - exists (filter (fun p => p <> nullptr) ps). split; [exact Hcalls |].
    intros p. rewrite list_elem_of_filter. split.
    + intros [Hnz Hin]. split; [exact Hnz | now apply drained_pages_local].
    + intros [Hnz Hin]. split; [exact Hnz | now apply drained_pages_local].
  - intros Hdisj q. unfold in_victim_list. cbn. rewrite Hv.
    assert (Hagree : forall x, on_victim_list (heap st) (victim_head_ st) x ->
              heap (foldl delete_PageData st ps) !! x = heap st !! x).
    { intros x Hx. apply Hheap. intros Hloc. now apply (Hdisj x). }
    split.
    + now apply on_victim_list_agree_back.
    + now apply on_victim_list_agree.
Qed.

End PagePoolFacts.

(** ** The allocator used to run the pool *)

Lemma arena_new_ok slots garbage :
  sizeof_PageData * Z.of_nat slots < SizeT.modulus ->
  allocator_ok (arena_new slots garbage).
Proof.
  intros Hfit h p bytes Hnew. unfold arena_new in Hnew.
  destruct (find _ (arena slots)) as [a |] eqn:Hf; [| discriminate].
  injection Hnew as <- <-. apply find_some in Hf as [Hin Hfree].
  apply bool_decide_eq_true in Hfree. split; [| exact Hfree].
  unfold arena in Hin. apply in_map_iff in Hin as (i & <- & Hi).
  apply in_seq in Hi. change sizeof_PageData with 4096 in *. lia.
Qed.

(** ** The calls on a pool that holds nothing yet *)

Lemma Get_order_witness :
  cache_ok 1 (cache_of 1 (PagePool_new Reset) 0) /\
  allocator_ok (arena_new 16 uninitialised) /\
  Get 1 (arena_new 16 uninitialised) 0 [] (PagePool_new Reset) <> Out_of_fuel.
Proof.
  assert (H1 : cache_ok 1 (cache_of 1 (PagePool_new Reset) 0)) by apply cache_ok_init.
  assert (H2 : allocator_ok (arena_new 16 uninitialised))
    by (apply arena_new_ok; reflexivity).
  split; [exact H1 |]. split; [exact H2 |].
  apply (Get_order 1 (arena_new 16 uninitialised) 0 [] (PagePool_new Reset) H1 H2).
Defined.

Lemma Get_Put_Get_witness :
  exists st1 st2 st3,
    Get 1 (arena_new 16 uninitialised) 0 [] (PagePool_new Reset) = Done (4096, st1) /\
    Put 1 0 [] 4096 st1 = Done st2 /\
    Get 1 (arena_new 16 uninitialised) 0 [] st2 = Done (4096, st3).
Proof.
  assert (H1 : cache_ok 1 (cache_of 1 (PagePool_new Reset) 0)) by apply cache_ok_init.
  assert (H2 : allocator_ok (arena_new 16 uninitialised))
    by (apply arena_new_ok; reflexivity).
  eexists.
  assert (HG : Get 1 (arena_new 16 uninitialised) 0 [] (PagePool_new Reset)
               = Done (4096, _)) by (vm_compute; reflexivity).
  destruct (Get_Put_Get 1 (arena_new 16 uninitialised) 0 [] [] []
              (PagePool_new Reset) 4096 _ H1 H2 HG) as (st2 & st3 & HP & HG2 & _).
  exists st2, st3. split; [exact HG |]. split; [exact HP | exact HG2].
Defined.

(** ** Threads taking turns *)

Lemma aba_schedule_result :
  option_map (fun m => (Interleaving.held m 0, Interleaving.held m 1,
                        Interleaving.pc_of m 0, Interleaving.pc_of m 1))
    (Interleaving.run 32 (arena_new 64 uninitialised) (Interleaving.aba_schedule 32)
       (Interleaving.Machine_new Reset))
  = Some ([Interleaving.page 33; Interleaving.page 34], [Interleaving.page 33],
          Interleaving.Idle, Interleaving.Idle).
Proof. vm_compute. reflexivity. Qed.

(** C10 fails on the code. With the default cache size of 32 there is a
    schedule of two threads, each making whole [Get] and [Put] calls and
    returning only pages it holds, after which both threads are between
    calls and hold the same page: the second [Get] of thread 0 returned
    page 33 while thread 1 had it checked out. *)
Theorem checkout_not_exclusive :
  exists m,
    Interleaving.run 32 (arena_new 64 uninitialised) (Interleaving.aba_schedule 32)
      (Interleaving.Machine_new Reset) = Some m /\
    Interleaving.pc_of m 0 = Interleaving.Idle /\
    Interleaving.pc_of m 1 = Interleaving.Idle /\
    Interleaving.page 33 ∈ Interleaving.held m 0 /\
    Interleaving.page 33 ∈ Interleaving.held m 1.
Proof.
  pose proof aba_schedule_result as H.
  destruct (Interleaving.run _ _ _ _) as [m |]; [| discriminate].
  exists m. cbn [option_map] in H. injection H as H0 H1 Hp0 Hp1.
  split; [reflexivity |]. split; [exact Hp0 |]. split; [exact Hp1 |].
  rewrite H0, H1. split; [apply list_elem_of_here | apply list_elem_of_here].
Qed.

(** The same happens to threads that hold one page at a time, when the
    caches have no slot: thread 1 is handed the page thread 2 holds. *)
Example strict_cycles_share_a_page :
  option_map (fun m => (Interleaving.held m 0, Interleaving.held m 1,
                        Interleaving.held m 2))
    (Interleaving.run 0 (arena_new 64 uninitialised) Interleaving.aba_schedule_cycles
       (Interleaving.Machine_new Reset))
  = Some ([Interleaving.page 2], [Interleaving.page 1], [Interleaving.page 1]).
Proof. vm_compute. reflexivity. Qed.

(** A thread that runs alone does what the calls do. *)
Section Solo.

Variable N : nat.
Variable operator_new : gmap Z (list Z) -> option (Z * list Z).

Import Interleaving.

Lemma pc_of_at_pc t c st m : pc_of (at_pc t c st m) t = c.
Proof. unfold pc_of, at_pc. cbn. now rewrite lookup_insert_eq. Qed.

Lemma pc_of_returns t p st m : pc_of (returns t p st m) t = Idle.
Proof. unfold pc_of, returns. cbn. now rewrite lookup_insert_eq. Qed.

Lemma held_returns t p st m : held (returns t p st m) t = p :: held m t.
Proof. unfold held at 1. unfold returns. cbn. now rewrite lookup_insert_eq. Qed.

Lemma finish_idle fuel t m :
  pc_of m t = Idle -> finish N operator_new fuel t m = Some m.
Proof. intros H. destruct fuel; cbn; now rewrite H. Qed.

Lemma finish_turn fuel t m m' :
  pc_of m t <> Idle ->
  step N operator_new (Step t false) m = Some m' ->
  finish N operator_new (S fuel) t m = finish N operator_new fuel t m'.
Proof.
  intros Hbusy Hstep. cbn [finish]. rewrite Hstep.
  destruct (pc_of m t); [contradiction | reflexivity ..].
Qed.

Lemma step_StealLoaded t m head :
  pc_of m t = StealLoaded head ->
  step N operator_new (Step t false) m =
    if head =? nullptr then
      match new_PageData operator_new (pool m) with
      | Done (p, st) => Some (returns t p st m)
      | _ => None
      end
    else Some (at_pc t (StealRead head (load_link (page_bytes (pool m) head)))
                     (pool m) m).
Proof. intros H. unfold step. now rewrite H. Qed.

Lemma step_StealRead t m head next :
  pc_of m t = StealRead head next -> victim_head_ (pool m) = head ->
  step N operator_new (Step t false) m =
    Some (returns t head (set_victim_head next (pool m)) m).
Proof.
  intros H Hv. unfold step. rewrite H. unfold compare_exchange_weak.
  cbn [negb andb]. now rewrite Hv, Z.eqb_refl.
Qed.

Lemma step_AddLoaded t m p head :
  pc_of m t = AddLoaded p head ->
  step N operator_new (Step t false) m =
    Some (at_pc t (AddWritten p head)
            (set_heap (alter (store_link head) p (heap (pool m))) (pool m)) m).
Proof. intros H. unfold step. now rewrite H. Qed.

Lemma step_AddWritten t m p head :
  pc_of m t = AddWritten p head -> victim_head_ (pool m) = head ->
  step N operator_new (Step t false) m =
    Some (at_pc t Idle (set_victim_head p (pool m)) m).
Proof.
  intros H Hv. unfold step. rewrite H. unfold compare_exchange_weak.
  cbn [negb andb]. now rewrite Hv, Z.eqb_refl.
Qed.

(** A whole [Get] of a thread that meets no other thread. *)
Lemma solo_Get t m p st' :
  pc_of m t = Idle ->
  Get N operator_new t [] (pool m) = Done (p, st') ->
  exists m', solo N operator_new (CallGet t) t m = Some m' /\
             pool m' = st' /\ held m' t = p :: held m t /\ pc_of m' t = Idle.
Proof.
  intros Hidle HG. unfold solo. unfold step at 1. rewrite Hidle.
  unfold Get in HG.
  destruct (TryAcquireFromLocalCache N t (pool m)) as [pg st1].
  destruct (negb (pg =? nullptr)) eqn:Hpg.
  - injection HG as <- <-. eexists. split; [apply finish_idle, pc_of_returns |].
    split; [reflexivity |]. split; [apply held_returns | apply pc_of_returns].
  - unfold StealFromVictimList in HG. cbn [length] in HG.
    rewrite steal_loop_unfold in HG.
    set (m1 := at_pc t (StealLoaded (victim_head_ st1)) st1 m).
    assert (Hpc1 : pc_of m1 t = StealLoaded (victim_head_ st1)) by apply pc_of_at_pc.
    pose proof (step_StealLoaded t m1 _ Hpc1) as Hs1. cbn [m1 pool at_pc] in Hs1.
    destruct (victim_head_ st1 =? nullptr) eqn:Hv.
    + cbn [negb Z.eqb nullptr] in HG. rewrite HG in Hs1.
      rewrite (finish_turn _ _ _ _ ltac:(rewrite Hpc1; discriminate) Hs1).
      eexists. split; [apply finish_idle, pc_of_returns |].
      split; [reflexivity |]. split; [| apply pc_of_returns].
      rewrite held_returns. reflexivity.
    + unfold compare_exchange_weak in HG. cbn [hd negb andb] in HG.
      rewrite Z.eqb_refl in HG. rewrite Hv in HG. cbn [negb] in HG.
      injection HG as <- <-.
      rewrite (finish_turn _ _ _ _ ltac:(rewrite Hpc1; discriminate) Hs1).
      set (next := load_link (page_bytes st1 (victim_head_ st1))).
      set (m2 := at_pc t (StealRead (victim_head_ st1) next) st1 m1).
      assert (Hpc2 : pc_of m2 t = StealRead (victim_head_ st1) next) by apply pc_of_at_pc.
      pose proof (step_StealRead t m2 _ _ Hpc2 eq_refl) as Hs2.
      rewrite (finish_turn _ _ _ _ ltac:(rewrite Hpc2; discriminate) Hs2).
      eexists. split; [apply finish_idle, pc_of_returns |].
      split; [reflexivity |]. split; [| apply pc_of_returns].
      rewrite held_returns. reflexivity.
Qed.

(** A whole [Put] of a thread that meets no other thread. *)
Lemma solo_Put t m p st' :
  pc_of m t = Idle -> p <> nullptr -> p ∈ held m t ->
  Put N t [] p (pool m) = Done st' ->
  exists m', solo N operator_new (CallPut t p) t m = Some m' /\
             pool m' = st' /\ held m' t = remove_one p (held m t) /\
             pc_of m' t = Idle.
Proof.
  intros Hidle Hnz Hheld HP. unfold solo. unfold step at 1. rewrite Hidle.
  unfold Put in HP. destruct (Z.eqb_spec p nullptr) as [| _]; [contradiction |].
  rewrite bool_decide_eq_true_2 by exact Hheld.
  destruct (ReturnToLocalCache N t p (invoke_reset p (pool m))) as [ok st2].
  set (m0 := mkMachine st2 (pcs m) (<[t := remove_one p (held m t)]> (checked_out m))).
  assert (Hheld0 : held m0 t = remove_one p (held m t)).
  { unfold held at 1. cbn. now rewrite lookup_insert_eq. }
  destruct ok.
  - injection HP as <-. exists m0. split; [apply finish_idle; exact Hidle |].
    split; [reflexivity |]. split; [exact Hheld0 | exact Hidle].
  - unfold AddToVictimList in HP. cbn [length] in HP. rewrite add_loop_unfold in HP.
    unfold compare_exchange_weak in HP.
    cbn [hd negb andb set_heap victim_head_] in HP. rewrite Z.eqb_refl in HP.
    injection HP as <-.
    set (m1 := at_pc t (AddLoaded p (victim_head_ st2)) st2 m0).
    assert (Hpc1 : pc_of m1 t = AddLoaded p (victim_head_ st2)) by apply pc_of_at_pc.
    pose proof (step_AddLoaded t m1 _ _ Hpc1) as Hs1. cbn [m1 pool at_pc] in Hs1.
    rewrite (finish_turn _ _ _ _ ltac:(rewrite Hpc1; discriminate) Hs1).
    set (st3 := set_heap (alter (store_link (victim_head_ st2)) p (heap st2)) st2).
    set (m2 := at_pc t (AddWritten p (victim_head_ st2)) st3 m1).
    assert (Hpc2 : pc_of m2 t = AddWritten p (victim_head_ st2)) by apply pc_of_at_pc.
    pose proof (step_AddWritten t m2 _ _ Hpc2 eq_refl) as Hs2.
    rewrite (finish_turn _ _ _ _ ltac:(rewrite Hpc2; discriminate) Hs2).
    eexists. split; [apply finish_idle, pc_of_at_pc |].
    split; [reflexivity |]. split; [| apply pc_of_at_pc].
    exact Hheld0.
Qed.

End Solo.

(** * More properties of the code *)

(** ** AlignTo *)

Lemma round_up_multiple m a : 0 < a -> m mod a = 0 -> round_up m a = m.
Proof.
  intros Ha Hm. unfold round_up.
  apply Z.mod_divide in Hm; [| lia]. destruct Hm as [q ->].
  replace (q * a + a - 1) with (a - 1 + q * a) by lia.
  rewrite Z.div_add by lia. rewrite (Z.div_small (a - 1)) by lia. lia.
Qed.

Lemma round_up_mod x a : 0 < a -> round_up x a mod a = 0.
Proof. intros Ha. unfold round_up. apply Z.mod_mul. lia. Qed.

Lemma round_up_least x a m : 0 < a -> m mod a = 0 -> x <= m -> round_up x a <= m.
Proof.
  intros Ha Hm Hx. rewrite <- (round_up_multiple m a Ha Hm).
  now apply round_up_mono.
Qed.

(** X1. For a power-of-two alignment, and a size that leaves room for it
    below [2^64], [AlignTo] returns the least multiple of the alignment that
    is not below the size. *)
Theorem AlignTo_least_multiple size alignment :
  power_of_two alignment -> 0 <= size -> size + alignment <= SizeT.modulus ->
  AlignTo size alignment mod alignment = 0 /\
  size <= AlignTo size alignment < size + alignment /\
  forall m, m mod alignment = 0 -> size <= m -> AlignTo size alignment <= m.
Proof.
  intros (k & Hk & ->) Hs Hroom. pose proof (pow2_bounds k Hk) as Hp.
  rewrite AlignTo_round_up by assumption.
  split; [apply round_up_mod; lia |]. split.
  - split; [apply round_up_ge; lia | apply round_up_lt; lia].
  - intros m Hm Hle. apply round_up_least; [lia | exact Hm | exact Hle].
Qed.

Lemma AlignTo_least_multiple_witness :
  power_of_two 4096 /\ AlignTo 5000 4096 mod 4096 = 0 /\
  5000 <= AlignTo 5000 4096 < 5000 + 4096.
Proof.
  assert (H : power_of_two 4096)
    by (exists 12; split; [unfold SizeT.bits; lia | reflexivity]).
  split; [exact H |].
  destruct (AlignTo_least_multiple 5000 4096 H) as (Hm & Hr & _);
    [lia | unfold SizeT.modulus, SizeT.bits; lia |].
  split; [exact Hm | exact Hr].
Defined.

(** X2. Under the same conditions a size that is already a multiple of the
    alignment is returned as it is, so aligning twice is aligning once. *)
Theorem AlignTo_idempotent size alignment :
  power_of_two alignment -> 0 <= size -> size + alignment <= SizeT.modulus ->
  (size mod alignment = 0 -> AlignTo size alignment = size) /\
  AlignTo (AlignTo size alignment) alignment = AlignTo size alignment.
Proof.
  intros (k & Hk & ->) Hs Hroom. pose proof (pow2_bounds k Hk) as Hp.
  split.
  - intros Hm. rewrite AlignTo_round_up by assumption.
    apply round_up_multiple; [lia | exact Hm].
  - rewrite (AlignTo_round_up size k) by assumption.
    pose proof (round_up_ge size (2 ^ k) ltac:(lia)) as Hge.
    pose proof (round_up_lt size (2 ^ k) ltac:(lia)) as Hlt.
    rewrite AlignTo_round_up; [| exact Hk | lia |].
    + apply round_up_multiple; [lia | apply round_up_mod; lia].
    + unfold round_up in *. apply multiple_room; [exact Hk | lia].
Qed.

Lemma AlignTo_idempotent_witness :
  power_of_two 4096 /\
  AlignTo (AlignTo 5000 4096) 4096 = AlignTo 5000 4096.
Proof.
  assert (H : power_of_two 4096)
    by (exists 12; split; [unfold SizeT.bits; lia | reflexivity]).
  split; [exact H |].
  apply (AlignTo_idempotent 5000 4096 H);
    [lia | unfold SizeT.modulus, SizeT.bits; lia].
Defined.

(** X3. When the size is within one alignment of [2^64] the sum wraps
    around and [AlignTo] returns 0, which is below the size. *)
Theorem AlignTo_wraps_to_zero size alignment :
  power_of_two alignment ->
  SizeT.modulus - alignment < size < SizeT.modulus ->
  AlignTo size alignment = 0.
Proof.
  intros (k & Hk & ->) Hs. pose proof (pow2_bounds k Hk) as Hp.
  unfold AlignTo.
  assert (Hsum : SizeT.sub (SizeT.add size (2 ^ k)) 1
                 = size + 2 ^ k - SizeT.modulus - 1).
  { assert (Hadd : SizeT.add size (2 ^ k) = size + 2 ^ k - SizeT.modulus).
    { unfold SizeT.add, SizeT.wrap.
      replace (size + 2 ^ k) with (size + 2 ^ k - SizeT.modulus + 1 * SizeT.modulus)
        at 1 by lia.
      rewrite Z.mod_add by lia. apply Z.mod_small. lia. }
    rewrite Hadd. unfold SizeT.sub. apply wrap_small. lia. }
  rewrite Hsum, land_not_mask by lia.
  rewrite Z.div_small by lia. reflexivity.
Qed.

Lemma AlignTo_wraps_to_zero_witness :
  power_of_two 4096 /\ AlignTo (SizeT.modulus - 1) 4096 = 0.
Proof.
  assert (H : power_of_two 4096)
    by (exists 12; split; [unfold SizeT.bits; lia | reflexivity]).
  split; [exact H |].
  apply (AlignTo_wraps_to_zero (SizeT.modulus - 1) 4096 H).
  unfold SizeT.modulus, SizeT.bits. lia.
Defined.

(** X4. An alignment of 0 is not rejected: the mask is empty and the result
    is 0 for every size. *)
Theorem AlignTo_zero_alignment size : AlignTo size 0 = 0.
Proof.
  unfold AlignTo, SizeT.and.
  replace (SizeT.not (SizeT.sub 0 1)) with 0 by reflexivity.
  apply Z.land_0_r.
Qed.

(** ** ComputeMmapSize *)

Lemma find_level_above v :
  2 ^ 30 < v -> find (fun e => v <=? e) kMmapSizeLevels = None.
Proof.
  intros Hv. destruct (find _ kMmapSizeLevels) as [e |] eqn:Hf; [| reflexivity].
  apply find_level_le in Hf. lia.
Qed.

(** A table entry is its own first entry at or above it. *)
Lemma find_level_fixed req e :
  find (fun e => req <=? e) kMmapSizeLevels = Some e ->
  find (fun e' => e <=? e') kMmapSizeLevels = Some e.
Proof.
  intros Hf. pose proof (find_first_ge kMmapSizeLevels req) as H. rewrite Hf in H.
  destruct H as (i & Hi & He & _ & _).
  pose proof (find_first_ge kMmapSizeLevels e) as H'.
  destruct (find (fun e' => e <=? e') kMmapSizeLevels) as [e' |].
  - destruct H' as (j & Hj & He' & Hge & Hlt). f_equal.
    destruct (le_lt_dec j i) as [Hji | Hij].
    + assert (nth j kMmapSizeLevels 0 <= nth i kMmapSizeLevels 0)
        by (apply kMmapSizeLevels_ascending; lia).
      lia.
    + specialize (Hlt i Hij). lia.
  - specialize (H' i Hi). lia.
Qed.

Lemma kMmapSizeLevels_multiples e :
  In e kMmapSizeLevels -> e mod 2 ^ 15 = 0.
Proof.
  intros Hin. unfold kMmapSizeLevels in Hin. cbn [In] in Hin.
  repeat (destruct Hin as [<- | Hin]; [reflexivity |]). contradiction.
Qed.

(** Each level is twice the one before. *)
Lemma kMmapSizeLevels_double i :
  (S i < length kMmapSizeLevels)%nat ->
  nth (S i) kMmapSizeLevels 0 = 2 * nth i kMmapSizeLevels 0.
Proof.
  intros Hi. cbn [length kMmapSizeLevels] in Hi.
  do 15 (destruct i as [| i]; [reflexivity |]). lia.
Qed.

Lemma divide_pow2 j k m : 0 <= k <= j -> m mod 2 ^ j = 0 -> m mod 2 ^ k = 0.
Proof.
  intros Hjk Hm. assert (0 < 2 ^ j) by (apply Z.pow_pos_nonneg; lia).
  assert (0 < 2 ^ k) by (apply Z.pow_pos_nonneg; lia).
  apply Z.mod_divide in Hm; [| lia]. destruct Hm as [q ->].
  replace (2 ^ j) with (2 ^ (j - k) * 2 ^ k)
    by (rewrite <- Z.pow_add_r by lia; f_equal; lia).
  rewrite Z.mul_assoc. now apply Z.mod_mul; lia.
Qed.

(** The request rounded to the step and then to the page size is a multiple
    of both. *)
Lemma rounded_is_multiple x j k :
  0 <= j -> 0 <= k ->
  round_up (round_up x (2 ^ j)) (2 ^ k) mod 2 ^ j = 0 /\
  round_up (round_up x (2 ^ j)) (2 ^ k) mod 2 ^ k = 0.
Proof.
  intros Hj Hk.
  assert (0 < 2 ^ j) by (apply Z.pow_pos_nonneg; lia).
  assert (0 < 2 ^ k) by (apply Z.pow_pos_nonneg; lia).
  split; [| apply round_up_mod; lia].
  destruct (Z.le_ge_cases j k) as [Hjk | Hkj].
  - apply (divide_pow2 k j); [lia | apply round_up_mod; lia].
  - rewrite (round_up_multiple (round_up x (2 ^ j)) (2 ^ k)); [apply round_up_mod; lia | lia |].
    apply (divide_pow2 j k); [lia | apply round_up_mod; lia].
Qed.

(** X5. For a power-of-two step and page size, and a request whose rounded
    size fits in 64 bits, the size returned is never below the request. *)
Theorem ComputeMmapSize_covers_request s req v :
  power_of_two (max_mmap_step_ s) -> power_of_two (page_size_ s) ->
  round_up (round_up req (max_mmap_step_ s)) (page_size_ s) < SizeT.modulus ->
  ComputeMmapSize s req = Value v -> req <= v.
Proof.
  intros Hstep Hpage Hfit HC.
  assert (Hpos : 0 < max_mmap_step_ s /\ 0 < page_size_ s).
  { destruct Hstep as (j & Hj & ->), Hpage as (k & Hk & ->).
    split; apply Z.pow_pos_nonneg; lia. }
  rewrite ComputeMmapSize_refines_spec in HC by assumption.
  unfold spec_ComputeMmapSize in HC.
  destruct (max_mmap_size_ s <? req) eqn:Hc; [discriminate |]. apply Z.ltb_ge in Hc.
  destruct (find _ kMmapSizeLevels) as [e |] eqn:Hf; injection HC as <-.
  - now apply find_level_le in Hf.
  - pose proof (round_up_ge req (max_mmap_step_ s) (proj1 Hpos)).
    pose proof (round_up_ge (round_up req (max_mmap_step_ s)) (page_size_ s) (proj2 Hpos)).
    lia.
Qed.

Lemma ComputeMmapSize_covers_request_witness :
  ComputeMmapSize (MmapSizer_default kPageSize) (2 ^ 30 + 1) = Value (2 ^ 31) /\
  2 ^ 30 + 1 <= 2 ^ 31.
Proof.
  split; [reflexivity |].
  apply (ComputeMmapSize_covers_request (MmapSizer_default kPageSize) (2 ^ 30 + 1) (2 ^ 31)).
  - exists 30. split; [unfold SizeT.bits; lia | reflexivity].
  - exists 12. split; [unfold SizeT.bits; lia | reflexivity].
  - reflexivity.
  - reflexivity.
Defined.

(** X6. The ceiling bounds every size computed above the table, whatever
    the step and the page size are and even when the rounding wraps. *)
Theorem ComputeMmapSize_above_table_bounded s req v :
  2 ^ 30 < req -> ComputeMmapSize s req = Value v -> v <= max_mmap_size_ s.
Proof.
  intros Hreq HC.
  destruct (Z.lt_ge_cases (max_mmap_size_ s) req) as [Hlt | Hge].
  - rewrite ComputeMmapSize_rejected in HC by exact Hlt. discriminate.
  - rewrite ComputeMmapSize_accepted, find_level_above in HC by lia.
    injection HC as <-. apply Z.le_min_r.
Qed.

Lemma ComputeMmapSize_above_table_bounded_witness :
  2 ^ 30 < 2 ^ 30 + 1 /\ 2 ^ 31 <= max_mmap_size_ (MmapSizer_default kPageSize).
Proof.
  split; [lia |].
  apply (ComputeMmapSize_above_table_bounded (MmapSizer_default kPageSize)
           (2 ^ 30 + 1) (2 ^ 31)); [lia | reflexivity].
Defined.

(** X7. The ceiling does not bound the sizes taken from the table: with a
    ceiling below the first level, [2^15], every accepted request gets
    [2^15], which is above the ceiling. *)
Theorem ComputeMmapSize_ceiling_below_levels s req :
  req <= max_mmap_size_ s -> max_mmap_size_ s < 2 ^ 15 ->
  ComputeMmapSize s req = Value (2 ^ 15) /\
  has_value (ComputeMmapSize s (2 ^ 15)) = false.
Proof.
  intros Hreq Hmax. split.
  - rewrite ComputeMmapSize_accepted by exact Hreq.
    cbn [kMmapSizeLevels find].
    destruct (Z.leb_spec req (Z.shiftl 1 15)) as [_ | Hgt]; [reflexivity |].
    change (Z.shiftl 1 15) with (2 ^ 15) in Hgt. lia.
  - now rewrite ComputeMmapSize_rejected.
Qed.

Lemma ComputeMmapSize_ceiling_below_levels_witness :
  ComputeMmapSize (MmapSizer_new kPageSize 100 kDefaultMaxMmapStep) 50 = Value (2 ^ 15).
Proof.
  apply (ComputeMmapSize_ceiling_below_levels
           (MmapSizer_new kPageSize 100 kDefaultMaxMmapStep) 50); cbn; lia.
Defined.

(** X8. A computed size is a fixed point: with a power-of-two step and page
    size, a ceiling of at least [2^30] whose own rounding fits in 64 bits,
    feeding the result of [ComputeMmapSize] back through [AndThen] gives the
    same result, and a rejection stays the rejection it was. *)
Theorem ComputeMmapSize_AndThen_idempotent s req :
  power_of_two (max_mmap_step_ s) -> power_of_two (page_size_ s) ->
  2 ^ 30 <= max_mmap_size_ s ->
  round_up (round_up (max_mmap_size_ s) (max_mmap_step_ s)) (page_size_ s)
    < SizeT.modulus ->
  AndThen (ComputeMmapSize s req) (ComputeMmapSize s) = ComputeMmapSize s req.
Proof.
  intros Hstep Hpage Hmax Hfit.
  destruct (Z.lt_ge_cases (max_mmap_size_ s) req) as [Hlt | Hge].
  { rewrite ComputeMmapSize_rejected by exact Hlt. reflexivity. }
  pose proof Hstep as (j & Hj & Ej). pose proof Hpage as (k & Hk & Ek).
  assert (Hps : 0 < max_mmap_step_ s) by (rewrite Ej; apply Z.pow_pos_nonneg; lia).
  assert (Hpp : 0 < page_size_ s) by (rewrite Ek; apply Z.pow_pos_nonneg; lia).
  assert (Hmono : forall x, x <= max_mmap_size_ s ->
            round_up (round_up x (max_mmap_step_ s)) (page_size_ s) < SizeT.modulus).
  { intros x Hx. eapply Z.le_lt_trans; [| exact Hfit].
    apply round_up_mono; [lia |]. apply round_up_mono; lia. }
  destruct (find (fun e => req <=? e) kMmapSizeLevels) as [e |] eqn:Hf.
  - rewrite (ComputeMmapSize_in_table s req e Hge Hf). cbn [AndThen].
    apply ComputeMmapSize_in_table.
    + apply find_level_le in Hf. lia.
    + now apply find_level_fixed with req.
  - rewrite (ComputeMmapSize_above_table s req Hge Hf Hstep Hpage (Hmono req Hge)).
    cbn [AndThen].
    set (R := round_up (round_up req (max_mmap_step_ s)) (page_size_ s)).
    pose proof (find_level_none req Hf) as Hreq.
    assert (HR : req <= R).
    { pose proof (round_up_ge req (max_mmap_step_ s) Hps).
      pose proof (round_up_ge (round_up req (max_mmap_step_ s)) (page_size_ s) Hpp).
      unfold R. lia. }
    assert (Hv : 2 ^ 30 < Z.min R (max_mmap_size_ s)) by lia.
    rewrite (ComputeMmapSize_above_table s (Z.min R (max_mmap_size_ s)));
      [| lia | now apply find_level_above | exact Hstep | exact Hpage | apply Hmono; lia].
    f_equal.
    destruct (Z.le_ge_cases R (max_mmap_size_ s)) as [HRm | HRm].
    + rewrite (Z.min_l R) by exact HRm.
      destruct (rounded_is_multiple req j k ltac:(lia) ltac:(lia)) as [M1 M2].
      rewrite <- Ej, <- Ek in M1, M2. fold R in M1, M2.
      rewrite (round_up_multiple R (max_mmap_step_ s)) by assumption.
      rewrite (round_up_multiple R (page_size_ s)) by assumption. lia.
    + rewrite (Z.min_r R) by lia.
      pose proof (round_up_ge (max_mmap_size_ s) (max_mmap_step_ s) Hps).
      pose proof (round_up_ge (round_up (max_mmap_size_ s) (max_mmap_step_ s))
                    (page_size_ s) Hpp).
      lia.
Qed.

Lemma ComputeMmapSize_AndThen_idempotent_witness :
  AndThen (ComputeMmapSize (MmapSizer_default kPageSize) (2 ^ 30 + 1))
          (ComputeMmapSize (MmapSizer_default kPageSize))
  = Value (2 ^ 31).
Proof.
  rewrite (ComputeMmapSize_AndThen_idempotent (MmapSizer_default kPageSize) (2 ^ 30 + 1)).
  - reflexivity.
  - exists 30. split; [unfold SizeT.bits; lia | reflexivity].
  - exists 12. split; [unfold SizeT.bits; lia | reflexivity].
  - cbn. unfold kDefaultMaxMmapSize. lia.
  - reflexivity.
Defined.

Lemma pow2_le_exponent j k : 0 <= j -> 0 <= k -> 2 ^ k <= 2 ^ j -> k <= j.
Proof. intros Hj Hk H. apply (Z.pow_le_mono_r_iff 2); lia. Qed.

(** X9. With a power-of-two step and a power-of-two page size of at most
    [2^15], and a request whose rounded size fits in 64 bits, the size
    returned is a multiple of the page size, unless it is the ceiling
    itself. *)
Theorem ComputeMmapSize_page_aligned s req v :
  power_of_two (max_mmap_step_ s) -> power_of_two (page_size_ s) ->
  page_size_ s <= 2 ^ 15 ->
  round_up (round_up req (max_mmap_step_ s)) (page_size_ s) < SizeT.modulus ->
  ComputeMmapSize s req = Value v ->
  v mod page_size_ s = 0 \/ v = max_mmap_size_ s.
Proof.
  intros Hstep Hpage Hsmall Hfit HC.
  rewrite ComputeMmapSize_refines_spec in HC by assumption.
  unfold spec_ComputeMmapSize in HC.
  destruct (max_mmap_size_ s <? req); [discriminate |].
  destruct Hpage as (k & Hk & Ek). rewrite Ek in *.
  destruct (find _ kMmapSizeLevels) as [e |] eqn:Hf; injection HC as <-.
  - left. apply find_some in Hf as [Hin _].
    apply (divide_pow2 15 k); [| now apply kMmapSizeLevels_multiples].
    split; [lia |]. apply pow2_le_exponent; lia.
  - destruct (Z.le_ge_cases (round_up (round_up req (max_mmap_step_ s)) (2 ^ k))
                (max_mmap_size_ s)) as [H | H].
    + left. rewrite Z.min_l by exact H. apply round_up_mod.
      apply Z.pow_pos_nonneg; lia.
    + right. apply Z.min_r. lia.
Qed.

Lemma ComputeMmapSize_page_aligned_witness :
  2 ^ 31 mod kPageSize = 0 \/ 2 ^ 31 = kDefaultMaxMmapSize.
Proof.
  apply (ComputeMmapSize_page_aligned (MmapSizer_default kPageSize) (2 ^ 30 + 1) (2 ^ 31)).
  - exists 30. split; [unfold SizeT.bits; lia | reflexivity].
  - exists 12. split; [unfold SizeT.bits; lia | reflexivity].
  - cbn. unfold kPageSize. lia.
  - reflexivity.
  - reflexivity.
Defined.

(** The ceiling of the default configuration is not a multiple of the page
    size, and it is what the requests just below it get. *)
Example default_ceiling_is_odd :
  ComputeMmapSize (MmapSizer_default kPageSize) (kDefaultMaxMmapSize - 1)
    = Value kDefaultMaxMmapSize /\
  kDefaultMaxMmapSize mod kPageSize <> 0.
Proof. split; [vm_compute; reflexivity | vm_compute; discriminate]. Qed.

(** X10. With a power-of-two step of at most [2^30] and a power-of-two page
    size of at most the step, a request above [2^14] whose rounded size fits
    in 64 bits gets less than twice what it asked for. *)
Theorem ComputeMmapSize_less_than_twice s req v :
  power_of_two (max_mmap_step_ s) -> power_of_two (page_size_ s) ->
  page_size_ s <= max_mmap_step_ s -> max_mmap_step_ s <= 2 ^ 30 ->
  round_up (round_up req (max_mmap_step_ s)) (page_size_ s) < SizeT.modulus ->
  2 ^ 14 < req ->
  ComputeMmapSize s req = Value v -> v < 2 * req.
Proof.
  intros Hstep Hpage Hps Hs30 Hfit Hreq HC.
  rewrite ComputeMmapSize_refines_spec in HC by assumption.
  unfold spec_ComputeMmapSize in HC.
  destruct (max_mmap_size_ s <? req); [discriminate |].
  destruct (find (fun e => req <=? e) kMmapSizeLevels) as [e |] eqn:Hf;
    injection HC as <-.
  - pose proof (find_first_ge kMmapSizeLevels req) as H. rewrite Hf in H.
    destruct H as (i & Hi & He & _ & Hlt). destruct i as [| i].
    + change (nth 0 kMmapSizeLevels 0) with 32768 in He.
      change (2 ^ 14) with 16384 in Hreq. lia.
    + specialize (Hlt i ltac:(lia)).
      rewrite kMmapSizeLevels_double in He by exact Hi. lia.
  - apply find_level_none in Hf.
    destruct Hstep as (j & Hj & Ej), Hpage as (k & Hk & Ek). rewrite Ej, Ek in *.
    assert (0 < 2 ^ j) by (apply Z.pow_pos_nonneg; lia).
    assert (0 < 2 ^ k) by (apply Z.pow_pos_nonneg; lia).
    assert (Hkj : k <= j) by (apply pow2_le_exponent; lia).
    rewrite (round_up_multiple (round_up req (2 ^ j)) (2 ^ k));
      [| lia | apply (divide_pow2 j k); [lia | apply round_up_mod; lia]].
    pose proof (round_up_lt req (2 ^ j) ltac:(lia)). lia.
Qed.

Lemma ComputeMmapSize_less_than_twice_witness :
  2 ^ 14 < 2 ^ 30 + 1 /\ 2 ^ 31 < 2 * (2 ^ 30 + 1).
Proof.
  split; [lia |].
  apply (ComputeMmapSize_less_than_twice (MmapSizer_default kPageSize) (2 ^ 30 + 1) (2 ^ 31)).
  - exists 30. split; [unfold SizeT.bits; lia | reflexivity].
  - exists 12. split; [unfold SizeT.bits; lia | reflexivity].
  - vm_compute. discriminate.
  - vm_compute. discriminate.
  - reflexivity.
  - lia.
  - reflexivity.
Defined.

(** ** PagePool: the calls together *)

Section PagePoolMore.

Variable N : nat.
Variable operator_new : gmap Z (list Z) -> option (Z * list Z).

Create Rewrite HintDb pool_more.
#[local] Hint Rewrite cache_of_set_victim_head cache_of_set_heap cache_of_log_call
  cache_of_invoke_reset cache_of_set_cache : pool_more.

Lemma cache_of_set_cache_ne t t' c st :
  t <> t' -> cache_of N (set_cache t c st) t' = cache_of N st t'.
Proof. intros H. unfold cache_of, set_cache. cbn. now rewrite lookup_insert_ne. Qed.

(** Storing a thread's cache as it is changes no thread's cache. *)
Lemma cache_of_set_cache_same t t' st :
  cache_of N (set_cache t (cache_of N st t) st) t' = cache_of N st t'.
Proof.
  destruct (Nat.eq_dec t t') as [-> | Hne].
  - apply cache_of_set_cache.
  - now apply cache_of_set_cache_ne.
Qed.

(** [Put] on a cache with room, spelled out. *)
Lemma Put_local t sp p st :
  p <> nullptr -> (top (cache_of N st t) < N)%nat ->
  Put N t sp p st =
    Done (set_cache t (mkCache (<[top (cache_of N st t) := p]> (stack (cache_of N st t)))
                               (S (top (cache_of N st t))))
            (invoke_reset p st)).
Proof.
  intros Hnz Hroom. rewrite (Put_eq N t sp p st Hnz).
  unfold IsFull. destruct (Nat.leb_spec N (top (cache_of N st t))); [lia | reflexivity].
Qed.

Lemma Get_times_snoc t k : forall st l st' p st'',
  Get_times N operator_new t k st = Done (l, st') ->
  Get N operator_new t [] st' = Done (p, st'') ->
  Get_times N operator_new t (S k) st = Done (l ++ [p], st'').
Proof.
  induction k as [| k IH]; intros st l st' p st'' Hk HG.
  - cbn in Hk. injection Hk as E1 E2. subst l st'.
    cbn [Get_times]. rewrite HG. reflexivity.
  - cbn [Get_times] in Hk.
    destruct (Get N operator_new t [] st) as [[q sq] | |] eqn:Hq; try discriminate.
    destruct (Get_times N operator_new t k sq) as [[l' sl] | |] eqn:Hl; try discriminate.
    injection Hk as E1 E2. subst l sl.
    specialize (IH sq l' st' p st'' Hl HG).
    change (Get_times N operator_new t (S (S k)) st)
      with (match Get N operator_new t [] st with
            | Done (page, st1) =>
                match Get_times N operator_new t (S k) st1 with
                | Done (pages, st2) => Done (page :: pages, st2)
                | Threw_bad_alloc => Threw_bad_alloc
                | Out_of_fuel => Out_of_fuel
                end
            | Threw_bad_alloc => Threw_bad_alloc
            | Out_of_fuel => Out_of_fuel
            end).
    rewrite Hq, IH. reflexivity.
Qed.

(** Returning pages to a cache with room for them and taking as many back:
    what the two runs leave behind. *)
Lemma Put_each_then_Get_times t pages : forall st,
  cache_ok N (cache_of N st t) ->
  Forall (fun p => p <> nullptr) pages ->
  (top (cache_of N st t) + length pages <= N)%nat ->
  exists st1 st2,
    Put_each N t pages st = Done st1 /\
    Get_times N operator_new t (length pages) st1 = Done (rev pages, st2) /\
    top (cache_of N st2 t) = top (cache_of N st t) /\
    length (stack (cache_of N st2 t)) = N /\
    (forall i, (i < top (cache_of N st t))%nat ->
       stack (cache_of N st2 t) !! i = stack (cache_of N st t) !! i) /\
    victim_head_ st2 = victim_head_ st /\
    calls st2 = calls st ++ map CallReset pages.
Proof.
  induction pages as [| p pages IH]; intros st Hok Hnz Hroom.
  - exists st, st. cbn. rewrite app_nil_r. destruct Hok as (Hlen & _).
    repeat split; try reflexivity. exact Hlen.
  - apply Forall_cons in Hnz as [Hp Hnz]. cbn [length] in Hroom.
    pose proof Hok as (Hlen & Htop & Hent).
    pose proof (Put_local t [] p st Hp ltac:(lia)) as HP.
    set (st' := set_cache t
                  (mkCache (<[top (cache_of N st t) := p]> (stack (cache_of N st t)))
                           (S (top (cache_of N st t))))
                  (invoke_reset p st)) in *.
    assert (Hc' : cache_of N st' t =
                  mkCache (<[top (cache_of N st t) := p]> (stack (cache_of N st t)))
                          (S (top (cache_of N st t))))
      by (unfold st'; now autorewrite with pool_more).
    assert (Hok' : cache_ok N (cache_of N st' t))
      by (apply (Put_cache_ok N t [] p st st' Hp Hok HP)).
    destruct (IH st' Hok' Hnz) as (st1 & st2 & HPs & HGs & Htop2 & Hlen2 & Hsame & Hv & Hcalls).
    { rewrite Hc'. cbn [top]. lia. }
    rewrite Hc' in Htop2, Hsame. cbn [top stack] in Htop2, Hsame.
    assert (Hok2 : cache_ok N (cache_of N st2 t)).
    { split; [exact Hlen2 |]. split; [lia |].
      intros i q Hi Hq. rewrite Htop2 in Hi. rewrite Hsame in Hq by exact Hi.
      destruct Hok' as (_ & _ & Hent'). apply (Hent' i q); rewrite Hc'; cbn [top stack];
        [exact Hi | exact Hq]. }
    destruct (Get_hit N operator_new t [] st2 Hok2 ltac:(lia)) as (q & Hq & _ & HG).
    rewrite Htop2 in Hq.
    replace (S (top (cache_of N st t)) - 1)%nat with (top (cache_of N st t)) in Hq by lia.
    rewrite Hsame in Hq by lia.
    rewrite list_lookup_insert_eq in Hq by lia. injection Hq as <-.
    eexists st1, _. split; [cbn [Put_each]; rewrite HP; exact HPs |].
    split; [cbn [length rev]; apply (Get_times_snoc t _ _ _ _ _ _ HGs HG) |].
    autorewrite with pool_more. cbn [top stack].
    split; [lia |]. split; [exact Hlen2 |]. split; [| split].
    + intros i Hi. rewrite Hsame by lia. apply list_lookup_insert_ne. lia.
    + exact Hv.
    + cbn [set_cache calls]. rewrite Hcalls. unfold st'. cbn. now rewrite <- app_assoc.
Qed.

(** X11. A thread's cache is a stack: when the cache has room for them,
    pages that are not null, returned one after the other, come back from
    the following calls of [Get] in the opposite order, the cache and the
    victim list end as they began, and the only outside calls are the reset
    callbacks. *)
Theorem cache_returns_pages_in_reverse t pages st :
  cache_ok N (cache_of N st t) ->
  Forall (fun p => p <> nullptr) pages ->
  (top (cache_of N st t) + length pages <= N)%nat ->
  exists st1 st2,
    Put_each N t pages st = Done st1 /\
    Get_times N operator_new t (length pages) st1 = Done (rev pages, st2) /\
    top (cache_of N st2 t) = top (cache_of N st t) /\
    (forall i, (i < top (cache_of N st t))%nat ->
       stack (cache_of N st2 t) !! i = stack (cache_of N st t) !! i) /\
    victim_head_ st2 = victim_head_ st /\
    calls st2 = calls st ++ map CallReset pages.
Proof.
  intros Hok Hnz Hroom.
  destruct (Put_each_then_Get_times t pages st Hok Hnz Hroom)
    as (st1 & st2 & H1 & H2 & H3 & _ & H4 & H5 & H6).
  exists st1, st2. repeat split; assumption.
Qed.

(** X12. A page that one thread returns when its cache is full is the page
    the next [Get] of a thread with an empty cache receives; nothing is
    allocated. *)
Theorem overflow_page_goes_to_empty_thread t1 t2 sp1 sp2 p st :
  p <> nullptr -> IsFull N (cache_of N st t1) = true ->
  top (cache_of N st t2) = 0%nat ->
  exists st1 st2,
    Put N t1 sp1 p st = Done st1 /\
    Get N operator_new t2 sp2 st1 = Done (p, st2) /\
    calls st2 = calls st ++ [CallReset p].
Proof.
  intros Hnz Hfull Hempty. rewrite (Put_eq N t1 sp1 p st Hnz), Hfull.
  eexists. eexists. split; [reflexivity |].
  rewrite Get_miss.
  - cbn [set_victim_head victim_head_].
    destruct (Z.eqb_spec p nullptr); [contradiction |]. split; reflexivity.
  - autorewrite with pool_more.
    change (invoke_reset p st) with
      (log_call (CallReset p) (set_heap (alter (reset_fn_ st) p (heap st)) st)).
    rewrite <- (cache_of_set_cache_same t1 t2 st) in Hempty.
    exact Hempty.
Qed.

End PagePoolMore.

(** ** The victim list as a stack *)

Lemma victim_chain_head_range h head ps :
  victim_chain h head ps -> 0 <= head < SizeT.modulus.
Proof.
  intros H. destruct H as [| p bytes ps Hr _ _].
  - unfold nullptr. pose proof modulus_pos. lia.
  - lia.
Qed.

Lemma victim_chain_nonnull h head ps p :
  victim_chain h head ps -> p ∈ ps -> p <> nullptr.
Proof.
  intros H. induction H as [| q bytes ps Hr Hb Hc IH]; intros Hin.
  - now apply elem_of_nil in Hin.
  - apply elem_of_cons in Hin as [-> | Hin]; [unfold nullptr; lia | now apply IH].
Qed.

(** A heap that agrees on the pages of the list holds the same list. *)
Lemma victim_chain_agree h h' head ps :
  victim_chain h head ps -> (forall q, q ∈ ps -> h' !! q = h !! q) ->
  victim_chain h' head ps.
Proof.
  intros H. induction H as [| p bytes ps Hr Hb Hc IH]; intros Hagree.
  - apply chain_end.
  - apply chain_link with bytes; [exact Hr | |].
    + rewrite Hagree; [exact Hb | apply list_elem_of_here].
    + apply IH. intros q Hq. apply Hagree. now apply list_elem_of_further.
Qed.

(** The pages of the list are the pages linked from its head. *)
Lemma victim_chain_on_list h head ps q :
  victim_chain h head ps -> (on_victim_list h head q <-> q ∈ ps).
Proof.
  intros H. split.
  - intros Hq. revert ps H.
    induction Hq as [head Hnz | head bytes q Hnz Hb Hq IH]; intros ps H.
    + destruct H as [| p b ps' _ _ _]; [contradiction | apply list_elem_of_here].
    + destruct H as [| p b ps' _ Hb' Hc]; [contradiction |].
      rewrite Hb in Hb'. injection Hb' as <-.
      apply list_elem_of_further. now apply IH.
  - induction H as [| p bytes ps Hr Hb Hc IH]; intros Hin.
    + now apply elem_of_nil in Hin.
    + assert (Hnz : p <> nullptr) by (unfold nullptr; lia).
      apply elem_of_cons in Hin as [-> | Hin]; [now apply ovl_head |].
      apply ovl_next with bytes; [exact Hnz | exact Hb | now apply IH].
Qed.

(** X13. [AddToVictimList] pushes: on a well-formed list [ps], adding a live
    page that is not on it gives the list [p :: ps], whatever exchanges fail
    spuriously, and touches no byte of any other page. *)
Theorem AddToVictimList_pushes sp p bytes ps st :
  victim_chain (heap st) (victim_head_ st) ps ->
  0 < p < SizeT.modulus -> heap st !! p = Some bytes -> p ∉ ps ->
  exists st',
    AddToVictimList sp p st = Done st' /\
    victim_chain (heap st') (victim_head_ st') (p :: ps) /\
    (forall q, q <> p -> heap st' !! q = heap st !! q) /\
    local_cache_ st' = local_cache_ st /\ calls st' = calls st.
Proof.
  intros Hchain Hp Hlive Hout. rewrite AddToVictimList_eq. eexists.
  split; [reflexivity |]. cbn [set_victim_head set_heap heap victim_head_
                                local_cache_ calls].
  split; [| split; [| split; reflexivity]].
  - apply chain_link with (store_link (victim_head_ st) bytes); [exact Hp | |].
    + now rewrite lookup_alter_eq, Hlive.
    + rewrite load_store_link by (eapply victim_chain_head_range; exact Hchain).
      apply victim_chain_agree with (heap st); [exact Hchain |].
      intros q Hq. apply lookup_alter_ne. intros ->. contradiction.
  - intros q Hq. apply lookup_alter_ne. congruence.
Qed.

(** X14. [StealFromVictimList] pops: from a well-formed list [p :: ps] it
    returns [p] and leaves the list [ps]; from the empty list it returns
    null; either way it writes nothing and calls nothing. *)
Theorem StealFromVictimList_pops sp ps st :
  victim_chain (heap st) (victim_head_ st) ps ->
  exists st',
    StealFromVictimList sp st = Done (hd nullptr ps, st') /\
    victim_chain (heap st') (victim_head_ st') (tl ps) /\
    heap st' = heap st /\ local_cache_ st' = local_cache_ st /\
    calls st' = calls st.
Proof.
  intros Hchain. rewrite StealFromVictimList_eq.
  remember (victim_head_ st) as head eqn:Eh. remember (heap st) as h eqn:Ehp.
  destruct Hchain as [| p bytes ps' Hr Hb Hc].
  - exists st. cbn. rewrite <- Eh, <- Ehp. repeat split. apply chain_end.
  - destruct (Z.eqb_spec p nullptr) as [E | _]; [unfold nullptr in E; lia |].
    eexists. split; [reflexivity |]. cbn [tl set_victim_head heap victim_head_
                                           local_cache_ calls].
    rewrite <- Ehp. split; [| repeat split].
    unfold page_bytes. rewrite <- Ehp, Hb. exact Hc.
Qed.

(** X15. [~PagePool] on a well-formed victim list without repetition, given
    one loop turn per page and one more: it returns, the head is null, every
    page of the list is deleted, in list order, and no other page and no
    cache is touched. *)
Theorem PagePool_destroy_deletes_list fuel ps st :
  victim_chain (heap st) (victim_head_ st) ps -> NoDup ps ->
  (length ps < fuel)%nat ->
  exists st',
    PagePool_destroy fuel st = Done st' /\
    victim_head_ st' = nullptr /\
    (forall p, p ∈ ps -> heap st' !! p = None) /\
    (forall q, q ∉ ps -> heap st' !! q = heap st !! q) /\
    calls st' = calls st ++ map CallDelete ps /\
    local_cache_ st' = local_cache_ st.
Proof.
  intros Hchain Hnd Hfuel.
  assert (Hloop : forall ps head st fuel,
            victim_chain (heap st) head ps -> NoDup ps -> (length ps < fuel)%nat ->
            drain_victim_loop fuel head st = Done (foldl delete_PageData st ps)).
  { clear. induction ps as [| p ps IH]; intros head st fuel Hc Hnd Hfuel;
      (destruct fuel as [| fuel]; [cbn in Hfuel; lia |]).
    - inversion Hc; subst. reflexivity.
    - inversion Hc as [| p' bytes ps' Hr Hb Hc' Hhead Hps]; subst.
      cbn [drain_victim_loop foldl].
      destruct (Z.eqb_spec p nullptr) as [E | Hnz]; [unfold nullptr in E; lia |].
      unfold page_bytes at 1. rewrite Hb. cbn [default].
      apply NoDup_cons in Hnd as [Hout Hnd].
      apply IH; [| exact Hnd | cbn in Hfuel; lia].
      apply victim_chain_agree with (heap st); [exact Hc' |].
      intros q Hq. unfold delete_PageData.
      destruct (Z.eqb_spec p nullptr); [contradiction |]. cbn.
      apply lookup_delete_ne. intros ->. contradiction. }
  unfold PagePool_destroy, DrainVictimList.
  rewrite (Hloop ps (victim_head_ st) (set_victim_head nullptr st) fuel Hchain Hnd Hfuel).
  eexists. split; [reflexivity |].
  destruct (delete_all (set_victim_head nullptr st) ps) as (Hv & Hc & Hdel & Hkeep & Hcalls).
  split; [exact Hv |]. split; [| split; [| split]].
  - intros p Hp. apply Hdel; [exact Hp |]. eapply victim_chain_nonnull; eassumption.
  - intros q Hq. now rewrite Hkeep.
  - rewrite Hcalls. cbn [set_victim_head calls]. do 2 f_equal.
    clear -Hchain. induction Hchain as [| p bytes ps Hr Hb Hc IH]; [reflexivity |].
    rewrite filter_cons. rewrite decide_True by (unfold nullptr; lia).
    now rewrite IH.
  - exact Hc.
Qed.

(** ** What the calls leave alone *)

Section PagePoolFrame.

Variable N : nat.
Variable operator_new : gmap Z (list Z) -> option (Z * list Z).

(** What a returning [Get] can have done to the pool. *)
Lemma Get_Done_shape t sp st p st' :
  Get N operator_new t sp st = Done (p, st') ->
  exists c, local_cache_ st' = <[t := c]> (local_cache_ st) /\
    (heap st' = heap st \/
     exists bytes, operator_new (heap st) = Some (p, bytes) /\
                   heap st' = <[p := bytes]> (heap st)).
Proof.
  unfold Get, TryAcquireFromLocalCache. intros HG.
  destruct (TryPop (cache_of N st t)) as [page c].
  exists c. destruct (negb (page =? nullptr)).
  - injection HG as <- <-. split; [reflexivity | now left].
  - rewrite StealFromVictimList_eq in HG. cbn [set_cache victim_head_] in HG.
    destruct (victim_head_ st =? nullptr) eqn:Hv.
    + change (nullptr =? nullptr) with true in HG. cbn [negb] in HG.
      unfold new_PageData in HG.
      change (heap (set_cache t c st)) with (heap st) in HG.
      destruct (operator_new (heap st)) as [[q bytes] |] eqn:Hnew; [| discriminate].
      injection HG as <- <-. split; [reflexivity |]. right. now exists bytes.
    + cbv beta iota in HG. rewrite ?Hv in HG. cbn [negb] in HG.
      injection HG as <- <-. split; [reflexivity | now left].
Qed.

(** X16. [Get] and [Put] called by one thread leave the cache of every
    other thread as it is. *)
Theorem calls_leave_other_caches t t' sp p st :
  t' <> t ->
  (forall st', Put N t sp p st = Done st' -> cache_of N st' t' = cache_of N st t') /\
  (forall q st', Get N operator_new t sp st = Done (q, st') ->
     cache_of N st' t' = cache_of N st t').
Proof.
  intros Hne. split.
  - intros st' HP. destruct (Z.eq_dec p nullptr) as [-> | Hnz].
    + cbn in HP. now injection HP as <-.
    + rewrite (Put_eq N t sp p st Hnz) in HP.
      destruct (IsFull N (cache_of N st t)); injection HP as <-;
        unfold cache_of; cbn; now rewrite lookup_insert_ne.
  - intros q st' HG. destruct (Get_Done_shape t sp st q st' HG) as (c & Hc & _).
    unfold cache_of. rewrite Hc. now rewrite lookup_insert_ne.
Qed.

(** X17. [Put] neither allocates nor frees: the live pages are the same
    before and after, and the bytes of every page but the one it is given
    are unchanged. *)
Theorem Put_keeps_the_heap t sp p st st' :
  Put N t sp p st = Done st' ->
  dom (heap st') = dom (heap st) /\
  forall q, q <> p -> heap st' !! q = heap st !! q.
Proof.
  intros HP. destruct (Z.eq_dec p nullptr) as [-> | Hnz].
  - cbn in HP. injection HP as <-. split; reflexivity.
  - rewrite (Put_eq N t sp p st Hnz) in HP.
    destruct (IsFull N (cache_of N st t)); injection HP as <-; cbn; split.
    + now rewrite !dom_alter_L.
    + intros q Hq. rewrite !lookup_alter_ne by congruence. reflexivity.
    + now rewrite dom_alter_L.
    + intros q Hq. now rewrite lookup_alter_ne by congruence.
Qed.

(** X18. The calls keep a thread's cache in shape: [N] slots, at most [N] in
    use, none of them holding null. This holds after [Put] of a page that is
    not null, after [Get], and after the cache's destructor. *)
Theorem calls_keep_cache_ok t sp p st :
  cache_ok N (cache_of N st t) ->
  (forall st', p <> nullptr -> Put N t sp p st = Done st' ->
     cache_ok N (cache_of N st' t)) /\
  (forall q st', Get N operator_new t sp st = Done (q, st') ->
     cache_ok N (cache_of N st' t)) /\
  cache_ok N (cache_of N (ThreadLocalCache_destroy N t st) t).
Proof.
  intros Hok. split; [| split].
  - intros st' Hnz HP. exact (Put_cache_ok N t sp p st st' Hnz Hok HP).
  - intros q st' HG. exact (Get_cache_ok N operator_new t sp st q st' Hok HG).
  - unfold ThreadLocalCache_destroy, Drain. rewrite cache_of_set_cache.
    destruct Hok as (Hlen & _ & _). split; [exact Hlen |].
    split; [cbn; lia |]. intros i q Hi. cbn in Hi. lia.
Qed.

End PagePoolFrame.

(** ** The calls on small pools *)

Lemma cache_returns_pages_in_reverse_witness :
  exists st1 st2,
    Put_each 2 0 [4096; 8192] (PagePool_new Reset) = Done st1 /\
    Get_times 2 (arena_new 16 uninitialised) 0 2 st1 = Done ([8192; 4096], st2).
Proof.
  assert (H1 : cache_ok 2 (cache_of 2 (PagePool_new Reset) 0)) by apply cache_ok_init.
  assert (H2 : Forall (fun p => p <> nullptr) [4096; 8192])
    by (repeat constructor; unfold nullptr; lia).
  assert (H3 : (top (cache_of 2 (PagePool_new Reset) 0)
                + length ([4096; 8192]%Z : list Z) <= 2)%nat)
    by (change (top (cache_of 2 (PagePool_new Reset) 0)) with 0%nat; cbn; lia).
  destruct (cache_returns_pages_in_reverse 2 (arena_new 16 uninitialised) 0
              [4096; 8192] (PagePool_new Reset) H1 H2 H3)
    as (st1 & st2 & HP & HG & _).
  exists st1, st2. split; [exact HP | exact HG].
Defined.

Lemma overflow_page_goes_to_empty_thread_witness :
  exists st1 st2,
    Put 0 0 [] 4096 (PagePool_new Reset) = Done st1 /\
    Get 0 (arena_new 16 uninitialised) 1 [] st1 = Done (4096, st2).
Proof.
  assert (H1 : 4096 <> nullptr) by (unfold nullptr; lia).
  destruct (overflow_page_goes_to_empty_thread 0 (arena_new 16 uninitialised)
              0 1 [] [] 4096 (PagePool_new Reset) H1 eq_refl eq_refl)
    as (st1 & st2 & HP & HG & _).
  exists st1, st2. split; [exact HP | exact HG].
Defined.

Lemma AddToVictimList_pushes_witness :
  exists st',
    AddToVictimList [] 4096 (mkPool nullptr Reset ∅ {[4096 := uninitialised]} [])
      = Done st' /\
    victim_chain (heap st') (victim_head_ st') [4096].
Proof.
  destruct (AddToVictimList_pushes [] 4096 uninitialised []
              (mkPool nullptr Reset ∅ {[4096 := uninitialised]} []))
    as (st' & HA & Hc & _).
  - apply chain_end.
  - unfold SizeT.modulus, SizeT.bits. lia.
  - apply lookup_singleton_eq.
  - apply not_elem_of_nil.
  - exists st'. split; [exact HA | exact Hc].
Defined.

(** A pool whose victim list holds the one page at 4096. *)
Lemma one_page_list :
  victim_chain {[4096 := store_link nullptr uninitialised]} 4096 [4096].
Proof.
  apply chain_link with (store_link nullptr uninitialised).
  - unfold SizeT.modulus, SizeT.bits. lia.
  - apply lookup_singleton_eq.
  - apply chain_end.
Qed.

Lemma StealFromVictimList_pops_witness :
  exists st',
    StealFromVictimList []
      (mkPool 4096 Reset ∅ {[4096 := store_link nullptr uninitialised]} [])
      = Done (4096, st') /\
    victim_head_ st' = nullptr.
Proof.
  destruct (StealFromVictimList_pops [] [4096]
              (mkPool 4096 Reset ∅ {[4096 := store_link nullptr uninitialised]} [])
              one_page_list)
    as (st' & HS & Hc & _).
  exists st'. split; [exact HS |]. cbn [tl] in Hc. now inversion Hc.
Defined.

Lemma PagePool_destroy_deletes_list_witness :
  exists st',
    PagePool_destroy 2
      (mkPool 4096 Reset ∅ {[4096 := store_link nullptr uninitialised]} [])
      = Done st' /\
    heap st' !! 4096 = None /\ calls st' = [CallDelete 4096].
Proof.
  destruct (PagePool_destroy_deletes_list 2 [4096]
              (mkPool 4096 Reset ∅ {[4096 := store_link nullptr uninitialised]} [])
              one_page_list)
    as (st' & HD & _ & Hdel & _ & Hcalls & _).
  - apply NoDup_singleton.
  - cbn. lia.
  - exists st'. split; [exact HD |]. split; [apply Hdel, list_elem_of_here | exact Hcalls].
Defined.

Lemma calls_leave_other_caches_witness :
  1%nat <> 0%nat /\
  exists st', Put 1 0 [] 4096 (PagePool_new Reset) = Done st' /\
              cache_of 1 st' 1 = cache_of 1 (PagePool_new Reset) 1.
Proof.
  split; [lia |]. eexists. split; [reflexivity |].
  apply (calls_leave_other_caches 1 (arena_new 16 uninitialised) 0 1 [] 4096
           (PagePool_new Reset)); [lia | reflexivity].
Defined.

Lemma Put_keeps_the_heap_witness :
  exists st',
    Put 1 0 [] 4096 (mkPool nullptr Reset ∅ {[4096 := uninitialised]} []) = Done st' /\
    dom (heap st') = {[4096]}.
Proof.
  eexists. split; [reflexivity |].
  match goal with
  | |- dom (heap ?s) = _ =>
      assert (HP : Put 1 0 [] 4096
                     (mkPool nullptr Reset ∅ {[4096 := uninitialised]} []) = Done s)
        by reflexivity;
      destruct (Put_keeps_the_heap 1 0 [] 4096
                  (mkPool nullptr Reset ∅ {[4096 := uninitialised]} []) s HP)
        as [Hd _]
  end.
  rewrite Hd. cbn [heap]. apply dom_singleton_L.
Defined.

Lemma calls_keep_cache_ok_witness :
  cache_ok 1 (cache_of 1 (PagePool_new Reset) 0) /\
  cache_ok 1 (cache_of 1 (ThreadLocalCache_destroy 1 0 (PagePool_new Reset)) 0).
Proof.
  assert (H1 : cache_ok 1 (cache_of 1 (PagePool_new Reset) 0)) by apply cache_ok_init.
  split; [exact H1 |].
  apply (calls_keep_cache_ok 1 (arena_new 16 uninitialised) 0 [] 4096
           (PagePool_new Reset) H1).
Defined.

(** ** Expected *)

Section ExpectedLaws.

Context {T U V E G : Type}.

(** X19. [AndThen] chains: a value is handed to the function, an error
    passes through without the function being called, chaining [Value]
    changes nothing, and chaining twice is chaining the chained function. *)
Theorem AndThen_chains :
  (forall (v : T) (f : T -> Expected U E), AndThen (Value v) f = f v) /\
  (forall (e : E) (f : T -> Expected U E), AndThen (UnExpected e) f = UnExpected e) /\
  (forall x : Expected T E, AndThen x Value = x) /\
  (forall (x : Expected T E) (f : T -> Expected U E) (g : U -> Expected V E),
     AndThen (AndThen x f) g = AndThen x (fun t => AndThen (f t) g)).
Proof.
  split; [reflexivity |]. split; [reflexivity |]. split.
  - intros [v | e]; reflexivity.
  - intros [v | e] f g; reflexivity.
Qed.

(** X20. [Transform] maps the value and keeps the tag and the error: it
    composes, it is [AndThen] with the function's result wrapped, and it
    commutes with [TransformError], which maps the error and keeps the
    value. *)
Theorem Transform_maps_value :
  (forall (x : Expected T E) (f : T -> U) (g : U -> V),
     Transform (Transform x f) g = Transform x (fun t => g (f t))) /\
  (forall (x : Expected T E) (f : T -> U),
     Transform x f = AndThen x (fun t => Value (f t))) /\
  (forall (x : Expected T E) (f : T -> U),
     has_value (Transform x f) = has_value x) /\
  (forall (x : Expected T E) (f : T -> U) (e : E),
     ErrorOr (Transform x f) e = ErrorOr x e) /\
  (forall (x : Expected T E) (f : T -> U) (h : E -> G),
     TransformError (Transform x f) h = Transform (TransformError x h) f).
Proof.
  repeat split; intros [v | e]; reflexivity.
Qed.

(** X21. [OrElse] recovers: an error is handed to the function, a value
    passes through without the function being called, recovering with
    [UnExpected] changes nothing, and recovering with a fixed value gives
    what [ValueOr] gives. *)
Theorem OrElse_recovers :
  (forall (e : E) (f : E -> Expected T G), OrElse (UnExpected e) f = f e) /\
  (forall (v : T) (f : E -> Expected T G), OrElse (Value v) f = Value v) /\
  (forall x : Expected T E, OrElse x UnExpected = x) /\
  (forall (x : Expected T E) (d : T),
     OrElse x (fun _ => @Value T G d) = Value (ValueOr x d)).
Proof.
  split; [reflexivity |]. split; [reflexivity |]. split.
  - intros [v | e]; reflexivity.
  - intros [v | e] d; reflexivity.
Qed.

(** X22. [swap] exchanges the two objects, whichever of them holds a value. *)
Theorem Expected_swap_exchanges (x y : Expected T E) :
  Expected_swap x y = (y, x).
Proof. destruct x, y; reflexivity. Qed.

End ExpectedLaws.

(** X23. The three forms of [operator==] agree, and when the comparisons of
    the stored types decide equality, so does [operator==]. *)
Theorem Expected_eq_decides {T E : Type} (eq_val : T -> T -> bool)
    (eq_err : E -> E -> bool) :
  (forall a b, eq_val a b = true <-> a = b) ->
  (forall a b, eq_err a b = true <-> a = b) ->
  forall x y : Expected T E,
    (Expected_eq eq_val eq_err x y = true <-> x = y) /\
    (forall v, Expected_eq_value eq_val x v = Expected_eq eq_val eq_err x (Value v)) /\
    (forall e, Expected_eq_unexpected eq_err x e
               = Expected_eq eq_val eq_err x (UnExpected e)).
Proof.
  intros Hv He x y. split; [| split].
  - destruct x as [a | e], y as [b | e2]; cbn.
    + rewrite Hv. split; [now intros -> | now intros [= ->]].
    + split; discriminate.
    + split; discriminate.
    + rewrite He. split; [now intros -> | now intros [= ->]].
  - intros v. destruct x; reflexivity.
  - intros e. destruct x; reflexivity.
Qed.

Lemma error_code_eqb_eq a b : error_code_eqb a b = true <-> a = b.
Proof.
  unfold error_code_eqb. destruct a as [va ca], b as [vb cb]. cbn.
  rewrite andb_true_iff, Z.eqb_eq. split.
  - intros [Hc ->]. destruct ca, cb; try discriminate; reflexivity.
  - intros [= -> ->]. split; [destruct cb; reflexivity | reflexivity].
Qed.

Lemma Expected_eq_decides_witness :
  Expected_eq Z.eqb error_code_eqb
    (ComputeMmapSize (MmapSizer_default kPageSize) 1) (Value (2 ^ 15)) = true.
Proof.
  destruct (Expected_eq_decides Z.eqb error_code_eqb Z.eqb_eq error_code_eqb_eq
              (ComputeMmapSize (MmapSizer_default kPageSize) 1) (Value (2 ^ 15)))
    as [[_ H] _].
  apply H. reflexivity.
Defined.

(** ** Messages *)

(** X24. Every code of [DBErrorCode] has a message of its own, none of them
    the fallback, and every other number gets the fallback. *)
Theorem DBErrorCategory_message_codes :
  (forall c, DBErrorCategory_message (DBErrorCode_value c) <> "unknown boltdb error") /\
  (forall c c', DBErrorCategory_message (DBErrorCode_value c)
                = DBErrorCategory_message (DBErrorCode_value c') -> c = c') /\
  (forall ev, (forall c, ev <> DBErrorCode_value c) ->
     DBErrorCategory_message ev = "unknown boltdb error").
Proof.
  split; [| split].
  - intros []; discriminate.
  - intros [] []; cbn; intros H; try reflexivity; discriminate.
  - intros ev Hev. unfold DBErrorCategory_message.
    destruct (Z.eqb_spec ev (DBErrorCode_value kOk)) as [E | _];
      [now apply Hev in E |].
    destruct (Z.eqb_spec ev (DBErrorCode_value kMmapTooLarge)) as [E | _];
      [now apply Hev in E | reflexivity].
Qed.

Lemma append_one_inj (c : Ascii.ascii) : forall a b : string,
  String.append a (String c EmptyString) = String.append b (String c EmptyString) ->
  a = b.
Proof.
  induction a as [| x a IH]; intros [| y b] H; cbn in H.
  - reflexivity.
  - injection H as _ H. destruct b; discriminate.
  - injection H as _ H. destruct a; discriminate.
  - injection H as -> H. f_equal. now apply IH.
Qed.

Lemma append_length (a b : string) :
  String.length (String.append a b) = (String.length a + String.length b)%nat.
Proof.
  induction a as [| x a IH]; [reflexivity |].
  change (S (String.length (String.append a b))
          = S (String.length a + String.length b)). now rewrite IH.
Qed.

(** X25. [greet] wraps the name in eight characters, and different names get
    different greetings. *)
Theorem greet_wraps_name :
  (forall name, String.length (greet name) = (String.length name + 8)%nat) /\
  (forall a b, greet a = greet b -> a = b).
Proof.
  split.
  - intros name. unfold greet. rewrite !append_length. cbn. lia.
  - intros a b H. unfold greet in H. cbn in H.
    injection H as H. now apply append_one_inj in H.
Qed.

(** ** Put, with the victim list as a list *)

Section PutPushes.

Variable N : nat.

Lemma drop_store_link head bytes :
  drop sizeof_ptr (store_link head bytes) = drop sizeof_ptr bytes.
Proof.
  unfold store_link. now rewrite drop_app_length' by (symmetry; apply ptr_to_bytes_length).
Qed.


End PutPushes.


(** The state the stale exchange leaves, and what [Put] then does with the
    page thread 1 holds. *)
Lemma stale_head_result :
  option_map
    (fun m =>
       (Interleaving.held m 1, Interleaving.pc_of m 1,
        match Put 32 1 [] (Interleaving.page 33) (Interleaving.pool m) with
        | Done st' => Some (victim_head_ st', top (cache_of 32 st' 1),
                            stack (cache_of 32 st' 1) !! 31%nat)
        | _ => None
        end))
    (Interleaving.run 32 (arena_new 64 uninitialised) (stale_head_schedule 32)
       (Interleaving.Machine_new Reset))
  = Some ([Interleaving.page 32; Interleaving.page 33], Interleaving.Idle,
          Some (Interleaving.page 33, 32%nat, Some (Interleaving.page 33))).
Proof. vm_compute. reflexivity. Qed.


(** The same happens, without any other thread, to a page that is returned
    twice: with a cache of one slot the first [Put] stores it in the cache
    and the second pushes it on the victim list. *)
Example Put_twice_in_both :
  exists st1 st2 st3,
    Get 1 (arena_new 16 uninitialised) 0 [] (PagePool_new Reset) = Done (4096, st1) /\
    Put 1 0 [] 4096 st1 = Done st2 /\
    Put 1 0 [] 4096 st2 = Done st3 /\
    in_local_cache 1 st3 0 4096 /\ in_victim_list st3 4096.
Proof.
  eexists. eexists. eexists.
  split; [reflexivity |]. split; [reflexivity |]. split; [reflexivity |]. split.
  - exists 0%nat. split; [vm_compute; lia | reflexivity].
  - apply ovl_head. discriminate.
Qed.
